(** * Median absolute percentage error of the forecasting sample notebook

    Shallow embedding of [calc_median_ape] from
    [domain-packages/forecasting/models/AMLPF_models_sample_notebook.py]
    together with the NumPy operations it calls, and the properties of the
    accuracy evaluator proved on that embedding.

    Two numeric models are used.

    - The exact model ([Float64]): a cell is an exact rational, one of the
      two infinities, or NaN; finite results are kept in lowest terms.  It
      has no rounding and no overflow, and carries the properties that do
      not depend on them: which positions are filtered, which inputs raise,
      equalities between two runs of the same operations, and values that
      binary64 arithmetic computes exactly.

    - The binary64 model ([Binary64]): a cell is an IEEE 754 binary64 value
      as specified by [SpecFloat], every operation rounds to nearest, ties to
      even, and overflows to an infinity.  It carries the properties that
      depend on the value returned. *)

From Stdlib Require Import List Bool Arith Lia ZArith QArith Qabs Qreduction.
From Stdlib Require Import Lqa Permutation Sorting.Sorted SpecFloat.
Import ListNotations.

Local Open Scope Q_scope.

(** ** The exact model of float64 values *)

Module Float64.

Inductive float : Type :=
| NaN
| Inf (neg : bool)
| Fin (q : Q).

(** [q < 0] as a boolean. *)
Definition Qneg (q : Q) : bool := negb (Qle_bool 0 q).

Definition isnan (x : float) : bool :=
  match x with NaN => true | _ => false end.

Definition fadd (x y : float) : float :=
  match x, y with
  | NaN, _ | _, NaN => NaN
  | Inf s, Inf t => if Bool.eqb s t then Inf s else NaN
  | Inf s, Fin _ => Inf s
  | Fin _, Inf t => Inf t
  | Fin a, Fin b => Fin (Qred (a + b))
  end.

Definition fsub (x y : float) : float :=
  match x, y with
  | NaN, _ | _, NaN => NaN
  | Inf s, Inf t => if Bool.eqb s t then NaN else Inf s
  | Inf s, Fin _ => Inf s
  | Fin _, Inf t => Inf (negb t)
  | Fin a, Fin b => Fin (Qred (a - b))
  end.

Definition fmul (x y : float) : float :=
  match x, y with
  | NaN, _ | _, NaN => NaN
  | Inf s, Inf t => Inf (xorb s t)
  | Inf s, Fin b => if Qeq_bool b 0 then NaN else Inf (xorb s (Qneg b))
  | Fin a, Inf t => if Qeq_bool a 0 then NaN else Inf (xorb (Qneg a) t)
  | Fin a, Fin b => Fin (Qred (a * b))
  end.

(** Division; a zero divisor gives NaN for [0/0] and an infinity otherwise,
    as NumPy does (with a warning, not an exception). *)
Definition fdiv (x y : float) : float :=
  match x, y with
  | NaN, _ | _, NaN => NaN
  | Inf _, Inf _ => NaN
  | Inf s, Fin b => Inf (xorb s (Qneg b))
  | Fin _, Inf _ => Fin 0
  | Fin a, Fin b =>
      if Qeq_bool b 0
      then (if Qeq_bool a 0 then NaN else Inf (Qneg a))
      else Fin (Qred (a / b))
  end.

Definition fabs (x : float) : float :=
  match x with
  | NaN => NaN
  | Inf _ => Inf false
  | Fin q => Fin (Qabs q)
  end.

(** [x != y]: NaN differs from everything, itself included. *)
Definition fne (x y : float) : bool :=
  match x, y with
  | NaN, _ | _, NaN => true
  | Inf s, Inf t => xorb s t
  | Inf _, Fin _ | Fin _, Inf _ => true
  | Fin a, Fin b => negb (Qeq_bool a b)
  end.

(** The order [np.sort] uses: -inf, the finite values, +inf, then NaN. *)
Definition fle (x y : float) : bool :=
  match x, y with
  | _, NaN => true
  | NaN, _ => false
  | Inf true, _ => true
  | _, Inf false => true
  | Inf false, _ => false
  | Fin _, Inf true => false
  | Fin a, Fin b => Qle_bool a b
  end.

(** A real number or the missing-value marker. *)
Definition real_or_nan (x : float) : bool :=
  match x with Inf _ => false | _ => true end.

(** Finite values in lowest terms. *)
Definition canonical (x : float) : Prop :=
  match x with Fin q => Qred q = q | _ => True end.

End Float64.

Import Float64.

(** ** The NumPy operations the function calls, on one-dimensional arrays *)

Module Numpy.

Inductive exn : Type :=
| ValueError   (* operands could not be broadcast together *)
| IndexError.  (* boolean index did not match the indexed array *)

Inductive result (A : Type) : Type :=
| Ok (a : A)
| Raise (e : exn).
Arguments Ok {A} a.
Arguments Raise {A} e.

Definition bind {A B : Type} (r : result A) (k : A -> result B) : result B :=
  match r with
  | Ok a => k a
  | Raise e => Raise e
  end.

Definition ndarray : Type := list float.

(** [np.array(y).astype(float)]: the input already is a sequence of floats. *)
Definition astype_float (y : list float) : ndarray := y.

Fixpoint zip_with {A B C : Type} (f : A -> B -> C)
         (xs : list A) (ys : list B) : list C :=
  match xs, ys with
  | x :: xs', y :: ys' => f x y :: zip_with f xs' ys'
  | _, _ => []
  end.

(** A binary ufunc on two 1-D arrays: equal shapes go element by element, a
    length-1 operand is stretched, anything else is a broadcast failure. *)
Definition broadcast2 {A B C : Type} (f : A -> B -> C)
           (xs : list A) (ys : list B) : result (list C) :=
  if Nat.eqb (length xs) (length ys) then Ok (zip_with f xs ys)
  else match xs, ys with
       | [x], _ => Ok (map (f x) ys)
       | _, [y] => Ok (map (fun x => f x y) xs)
       | _, _ => Raise ValueError
       end.

Definition np_isnan (a : ndarray) : list bool := map isnan a.

(** [m1 | m2] *)
Definition np_or (m1 m2 : list bool) : result (list bool) :=
  broadcast2 orb m1 m2.

(** [~m] *)
Definition np_invert (m : list bool) : list bool := map negb m.

(** Selection of the entries whose mask bit is set. *)
Fixpoint compress {A : Type} (m : list bool) (a : list A) : list A :=
  match m, a with
  | b :: m', x :: a' => if b then x :: compress m' a' else compress m' a'
  | _, _ => []
  end.

(** [a[m]] with a boolean mask.  NumPy compares the mask's length with the
    array's only when the mask is not empty: an empty mask selects nothing
    from any array, a non-empty mask of another length is an IndexError. *)
Definition getitem_mask {A : Type} (a : list A) (m : list bool)
  : result (list A) :=
  if Nat.eqb (length m) 0 || Nat.eqb (length a) (length m)
  then Ok (compress m a)
  else Raise IndexError.

(** [a != c] with a scalar [c] *)
Definition np_ne_scalar (a : ndarray) (c : float) : list bool :=
  map (fun x => fne x c) a.

Definition np_subtract (a b : ndarray) : result ndarray := broadcast2 fsub a b.
Definition np_divide (a b : ndarray) : result ndarray := broadcast2 fdiv a b.
Definition np_abs (a : ndarray) : ndarray := map fabs a.

(** [a * c] with a scalar [c] *)
Definition np_mul_scalar (a : ndarray) (c : float) : ndarray :=
  map (fun x => fmul x c) a.

Fixpoint insert (x : float) (s : list float) : list float :=
  match s with
  | [] => [x]
  | y :: s' => if fle x y then x :: s else y :: insert x s'
  end.

Fixpoint np_sort (a : ndarray) : ndarray :=
  match a with
  | [] => []
  | x :: a' => insert x (np_sort a')
  end.

Definition of_nat (n : nat) : float := Fin (inject_Z (Z.of_nat n)).

(** [np.mean]: the sum, accumulated from zero, over the count. *)
Definition np_mean (a : ndarray) : float :=
  fdiv (fold_left fadd a (Fin 0)) (of_nat (length a)).

(** [np.median] of a 1-D array.  NumPy partitions the array around the
    middle positions, which puts there what a full sort would; it takes the
    mean of the one or two middle entries and, since NaN sorts last, returns
    NaN when the last entry is NaN. *)
Definition np_median (a : ndarray) : float :=
  let part := np_sort a in
  let sz := length a in
  let index := Nat.div sz 2 in
  let middle :=
    if Nat.odd sz then firstn 1 (skipn index part)
    else firstn 2 (skipn (index - 1) part) in
  let rout := np_mean middle in
  if Nat.ltb 0 sz && isnan (last part (Fin 0)) then NaN else rout.

End Numpy.

Import Numpy.

Declare Scope result_scope.
Delimit Scope result_scope with result.
Notation "x <- e ;; k" := (bind e (fun x => k))
  (at level 61, e at next level, right associativity) : result_scope.

(** ** The notebook's error function *)

Definition calc_median_ape (y_true y_pred : list float) : result float :=
  (let y_true := astype_float y_true in
   let y_pred := astype_float y_pred in
   na_t <- np_or (np_isnan y_true) (np_isnan y_pred) ;;
   y_true_rm_na <- getitem_mask y_true (np_invert na_t) ;;
   na_p <- np_or (np_isnan y_true) (np_isnan y_pred) ;;
   y_pred_rm_na <- getitem_mask y_pred (np_invert na_p) ;;
   let y_true := y_true_rm_na in
   let y_pred := y_pred_rm_na in
   if Nat.eqb (length y_true) 0 then Ok NaN
   else
     y_true_rm_zero <- getitem_mask y_true (np_ne_scalar y_true (Fin 0)) ;;
     y_pred_rm_zero <- getitem_mask y_pred (np_ne_scalar y_true (Fin 0)) ;;
     if Nat.eqb (length y_true_rm_zero) 0 then Ok NaN
     else
       diff <- np_subtract y_true_rm_zero y_pred_rm_zero ;;
       ratio <- np_divide diff y_true_rm_zero ;;
       let ape := np_mul_scalar (np_abs ratio) (Fin (inject_Z 100)) in
       let median_ape := np_median ape in
       Ok median_ape)%result.

(** ** Definitions that follow the specification's words *)

Module Spec.

(** Membership of an observation pair in the filtered sample set: actual
    non-missing and predicted non-missing and actual non-zero. *)
Definition in_sample (xy : float * float) : bool :=
  negb (isnan (fst xy)) && negb (isnan (snd xy)) && fne (fst xy) (Fin 0).

(** The positions of the filtered sample set. *)
Definition filtered_sample_set (actual predicted : list float) : list nat :=
  filter (fun i => in_sample (nth i actual NaN, nth i predicted NaN))
         (seq 0 (length actual)).

(** [abs((actual - predicted) / actual) * 100] on array cells. *)
Definition ape (xy : float * float) : float :=
  fmul (fabs (fdiv (fsub (fst xy) (snd xy)) (fst xy))) (Fin (inject_Z 100)).

(** The reference computation: one pass selecting the pairs that satisfy
    the conjunction, then the median of their percentage errors, undefined
    when nothing is selected. *)
Definition reference_median_ape (actual predicted : list float) : float :=
  match filter in_sample (combine actual predicted) with
  | [] => NaN
  | sample => np_median (map ape sample)
  end.

(** [abs((a - p) / a) * 100] on numbers. *)
Definition pct_error (ap : Q * Q) : Q :=
  Qabs ((fst ap - snd ap) / fst ap) * inject_Z 100.

Definition value (x : float) : Q :=
  match x with Fin q => q | _ => 0 end.

(** The pairs of numbers that survive both filters, in input order. *)
Definition sample_values (actual predicted : list float) : list (Q * Q) :=
  map (fun xy => (value (fst xy), value (snd xy)))
      (filter in_sample (combine actual predicted)).

(** Sequences of real numbers in which entries may be missing. *)
Definition reals_or_missing (a : list float) : bool := forallb real_or_nan a.

(** Sorting a sample of numbers in ascending order. *)
Fixpoint insertQ (x : Q) (s : list Q) : list Q :=
  match s with
  | [] => [x]
  | y :: s' => if Qle_bool x y then x :: s else y :: insertQ x s'
  end.

Fixpoint sortQ (l : list Q) : list Q :=
  match l with
  | [] => []
  | x :: l' => insertQ x (sortQ l')
  end.

(** Order statistics by counting: [v] has rank [k] (from 0) in the sample
    when at most [k] entries are below it and more than [k] are not above
    it. *)
Definition count_lt (v : Q) (l : list Q) : nat :=
  length (filter (fun x => negb (Qle_bool v x)) l).

Definition count_le (v : Q) (l : list Q) : nat :=
  length (filter (fun x => Qle_bool x v) l).

Definition order_statistic (l : list Q) (k : nat) (v : Q) : Prop :=
  (count_lt v l <= k /\ k < count_le v l)%nat.

(** The statistical median of a non-empty sample of size [n]: the midpoint
    of the entries of rank [(n-1)/2] and [n/2], which are the same entry
    when [n] is odd. *)
Definition statistical_median (l : list Q) (m : Q) : Prop :=
  exists lo hi : Q,
    order_statistic l (Nat.div (length l - 1) 2) lo /\
    order_statistic l (Nat.div (length l) 2) hi /\
    m == (lo + hi) / inject_Z 2.

End Spec.

Import Spec.

(** ** Masks, broadcasting and selection *)

Section Arrays.

Context {A B C : Type}.

Lemma zip_with_map (f : A -> B -> C) {T : Type} (g : T -> A) (h : T -> B)
      (c : list T) :
  zip_with f (map g c) (map h c) = map (fun x => f (g x) (h x)) c.
Proof.
  induction c as [|x c IH]; simpl; [reflexivity | now rewrite IH].
Qed.

Lemma broadcast2_aligned (f : A -> B -> C) (xs : list A) (ys : list B) :
  length xs = length ys -> broadcast2 f xs ys = Ok (zip_with f xs ys).
Proof.
  intros H. unfold broadcast2. now rewrite H, Nat.eqb_refl.
Qed.

Lemma compress_map (f : A -> bool) (g : A -> B) (c : list A) :
  compress (map f c) (map g c) = map g (filter f c).
Proof.
  induction c as [|x c IH]; simpl; [reflexivity|].
  destruct (f x); simpl; now rewrite IH.
Qed.

Lemma getitem_mask_map (f : A -> bool) (g : A -> B) (c : list A) :
  getitem_mask (map g c) (map f c) = Ok (map g (filter f c)).
Proof.
  unfold getitem_mask. rewrite !length_map, Nat.eqb_refl, orb_true_r.
  now rewrite compress_map.
Qed.

Lemma filter_twice (f g : A -> bool) (l : list A) :
  filter g (filter f l) = filter (fun x => f x && g x) l.
Proof.
  induction l as [|x l IH]; simpl; [reflexivity|].
  destruct (f x); simpl; [destruct (g x)|]; now rewrite IH.
Qed.

End Arrays.

Lemma combine_fst {A B : Type} (xs : list A) (ys : list B) :
  length xs = length ys -> map fst (combine xs ys) = xs.
Proof.
  revert ys; induction xs as [|x xs IH]; intros [|y ys] H; simpl in *;
    try discriminate; [reflexivity|].
  f_equal. apply IH. lia.
Qed.

Lemma combine_snd {A B : Type} (xs : list A) (ys : list B) :
  length xs = length ys -> map snd (combine xs ys) = ys.
Proof.
  revert ys; induction xs as [|x xs IH]; intros [|y ys] H; simpl in *;
    try discriminate; [reflexivity|].
  f_equal. apply IH. lia.
Qed.

(** ** The function on aligned inputs *)

(** The value computed from the list of observation pairs. *)
Definition median_of_pairs (c : list (float * float)) : float :=
  match filter in_sample c with
  | [] => NaN
  | sample => np_median (map ape sample)
  end.

Lemma in_sample_split (c : list (float * float)) :
  filter (fun xy => fne (fst xy) (Fin 0))
         (filter (fun xy => negb (isnan (fst xy) || isnan (snd xy))) c)
  = filter in_sample c.
Proof.
  rewrite filter_twice. apply filter_ext. intros [x y]; unfold in_sample; simpl.
  now rewrite negb_orb.
Qed.

Lemma calc_median_ape_pairs (c : list (float * float)) :
  calc_median_ape (map fst c) (map snd c) = Ok (median_of_pairs c).
Proof.
  unfold calc_median_ape, astype_float, np_or, np_isnan, np_invert.
  rewrite broadcast2_aligned by now rewrite !length_map.
  rewrite !map_map, zip_with_map. cbn [bind]. rewrite map_map.
  rewrite !getitem_mask_map. cbn [bind].
  unfold median_of_pairs. rewrite <- in_sample_split.
  set (c1 := filter (fun xy => negb (isnan (fst xy) || isnan (snd xy))) c).
  rewrite length_map.
  destruct c1 as [|xy1 c1'] eqn:E1; [reflexivity|].
  cbn [length Nat.eqb]. rewrite <- E1. clear E1 xy1 c1'.
  unfold np_ne_scalar. rewrite map_map, !getitem_mask_map. cbn [bind].
  set (c2 := filter (fun xy => fne (fst xy) (Fin 0)) c1).
  rewrite length_map.
  destruct c2 as [|xy2 c2'] eqn:E2; [reflexivity|].
  cbn [length Nat.eqb]. rewrite <- E2. clear E2 xy2 c2'.
  unfold np_subtract, np_divide.
  rewrite broadcast2_aligned by now rewrite !length_map.
  rewrite zip_with_map. cbn [bind].
  rewrite broadcast2_aligned by now rewrite !length_map.
  rewrite zip_with_map. cbn [bind].
  unfold np_mul_scalar, np_abs. rewrite !map_map. reflexivity.
Qed.

Lemma calc_median_ape_aligned (y_true y_pred : list float) :
  length y_true = length y_pred ->
  calc_median_ape y_true y_pred = Ok (reference_median_ape y_true y_pred).
Proof.
  intros H.
  rewrite <- (combine_fst y_true y_pred H) at 1.
  rewrite <- (combine_snd y_true y_pred H) at 2.
  apply calc_median_ape_pairs.
Qed.

(** ** The sorting order on floats *)

Section Order.

Lemma Qle_bool_total (a b : Q) : Qle_bool a b = true \/ Qle_bool b a = true.
Proof.
  destruct (Qlt_le_dec a b) as [H|H]; [left | right];
    apply Qle_bool_iff; [apply Qlt_le_weak|]; exact H.
Qed.

Lemma fle_total (x y : float) : fle x y = true \/ fle y x = true.
Proof.
  destruct x as [|[]|a], y as [|[]|b]; simpl; auto using Qle_bool_total.
Qed.

Lemma fle_trans (x y z : float) :
  fle x y = true -> fle y z = true -> fle x z = true.
Proof.
  destruct x as [|[]|a], y as [|[]|b], z as [|[]|c]; simpl;
    try reflexivity; try discriminate.
  rewrite !Qle_bool_iff. apply Qle_trans.
Qed.

Lemma fle_antisym (x y : float) :
  canonical x -> canonical y -> fle x y = true -> fle y x = true -> x = y.
Proof.
  destruct x as [|[]|a], y as [|[]|b]; simpl; try reflexivity; try discriminate.
  intros Ha Hb Hab Hba. apply Qle_bool_iff in Hab, Hba.
  rewrite <- Ha, <- Hb. f_equal. apply Qred_complete.
  now apply Qle_antisym.
Qed.

Lemma insert_comm (x y : float) (s : list float) :
  canonical x -> canonical y ->
  insert x (insert y s) = insert y (insert x s).
Proof.
  intros Cx Cy. induction s as [|z s IH]; simpl.
  - destruct (fle x y) eqn:Hxy, (fle y x) eqn:Hyx; try reflexivity.
    + now rewrite (fle_antisym x y Cx Cy Hxy Hyx).
    + destruct (fle_total x y); congruence.
  - destruct (fle y z) eqn:Hyz, (fle x z) eqn:Hxz; simpl;
      rewrite ?Hyz, ?Hxz.
    + destruct (fle x y) eqn:Hxy, (fle y x) eqn:Hyx; try reflexivity.
      * now rewrite (fle_antisym x y Cx Cy Hxy Hyx).
      * destruct (fle_total x y); congruence.
    + destruct (fle x y) eqn:Hxy.
      * rewrite (fle_trans x y z Hxy Hyz) in Hxz. discriminate.
      * destruct (fle y x) eqn:Hyx; [reflexivity|].
        destruct (fle_total x y); congruence.
    + destruct (fle y x) eqn:Hyx.
      * rewrite (fle_trans y x z Hyx Hxz) in Hyz. discriminate.
      * destruct (fle x y) eqn:Hxy; [reflexivity|].
        destruct (fle_total x y); congruence.
    + now rewrite IH.
Qed.

Lemma insert_permutation (x : float) (s : list float) :
  Permutation (insert x s) (x :: s).
Proof.
  induction s as [|y s IH]; simpl; [reflexivity|].
  destruct (fle x y); [reflexivity|].
  rewrite IH. apply perm_swap.
Qed.

Lemma np_sort_permutation (a : list float) : Permutation (np_sort a) a.
Proof.
  induction a as [|x a IH]; simpl; [reflexivity|].
  rewrite insert_permutation. now constructor.
Qed.

(** Sorting forgets the order of the input. *)
Lemma np_sort_order_free (a b : list float) :
  Permutation a b -> Forall canonical a -> np_sort a = np_sort b.
Proof.
  induction 1 as [|x a b _ IH|x y a|a b c Hab IH1 Hbc IH2]; intros Hc.
  - reflexivity.
  - simpl. inversion Hc; subst. now rewrite IH.
  - simpl. inversion Hc as [|? ? Cy Hc']; subst.
    inversion Hc' as [|? ? Cx ?]; subst. now apply insert_comm.
  - rewrite IH1 by assumption. apply IH2.
    eapply Permutation_Forall; eassumption.
Qed.

Lemma np_median_order_free (a b : list float) :
  Permutation a b -> Forall canonical a -> np_median a = np_median b.
Proof.
  intros Hp Hc. unfold np_median.
  rewrite (np_sort_order_free a b Hp Hc), (Permutation_length Hp).
  reflexivity.
Qed.

Lemma Qred_idem (q : Q) : Qred (Qred q) = Qred q.
Proof. apply Qred_complete, Qred_correct. Qed.

Lemma fmul_canonical (x y : float) : canonical (fmul x y).
Proof.
  destruct x as [|s|a], y as [|t|b]; cbn [fmul canonical]; auto.
  - now destruct (Qeq_bool b 0).
  - now destruct (Qeq_bool a 0).
  - apply Qred_idem.
Qed.

Lemma ape_canonical (xy : float * float) : canonical (ape xy).
Proof. apply fmul_canonical. Qed.

End Order.

(** ** Samples of real numbers *)

Section Samples.

Lemma insertQ_permutation (x : Q) (s : list Q) :
  Permutation (insertQ x s) (x :: s).
Proof.
  induction s as [|y s IH]; simpl; [reflexivity|].
  destruct (Qle_bool x y); [reflexivity|].
  rewrite IH. apply perm_swap.
Qed.

Lemma sortQ_permutation (l : list Q) : Permutation (sortQ l) l.
Proof.
  induction l as [|x l IH]; simpl; [reflexivity|].
  rewrite insertQ_permutation. now constructor.
Qed.

Lemma sortQ_length (l : list Q) : length (sortQ l) = length l.
Proof. apply Permutation_length, sortQ_permutation. Qed.

Lemma insertQ_sorted (x : Q) (s : list Q) :
  Sorted Qle s -> Sorted Qle (insertQ x s).
Proof.
  induction 1 as [|y s Hs IH Hd]; simpl; [repeat constructor|].
  destruct (Qle_bool x y) eqn:Hxy.
  - apply Qle_bool_iff in Hxy. repeat constructor; assumption.
  - assert (Hyx : y <= x).
    { destruct (Qle_bool_total x y) as [H|H]; [congruence|].
      now apply Qle_bool_iff. }
    constructor; [exact IH|].
    destruct s as [|z s]; simpl; [now constructor|].
    destruct (Qle_bool x z); constructor; [exact Hyx|].
    now inversion Hd.
Qed.

Lemma sortQ_sorted (l : list Q) : Sorted Qle (sortQ l).
Proof.
  induction l as [|x l IH]; simpl; [constructor | now apply insertQ_sorted].
Qed.

Lemma sortQ_strongly_sorted (l : list Q) : StronglySorted Qle (sortQ l).
Proof.
  apply Sorted_StronglySorted; [|apply sortQ_sorted].
  intros x y z. apply Qle_trans.
Qed.

(** Sorting respects equality of numbers, whatever their fractions. *)
Lemma insertQ_compat (x y : Q) (s t : list Q) :
  x == y -> Forall2 Qeq s t -> Forall2 Qeq (insertQ x s) (insertQ y t).
Proof.
  intros Hxy H. induction H as [|a b s t Hab H IH]; simpl.
  - now repeat constructor.
  - assert (E : Qle_bool x a = Qle_bool y b).
    { apply eq_true_iff_eq. rewrite !Qle_bool_iff. now rewrite Hxy, Hab. }
    rewrite E. destruct (Qle_bool y b); repeat constructor; assumption.
Qed.

Lemma sortQ_compat (l l' : list Q) :
  Forall2 Qeq l l' -> Forall2 Qeq (sortQ l) (sortQ l').
Proof.
  induction 1; simpl; [constructor | now apply insertQ_compat].
Qed.

Lemma Forall2_Qeq_nth (l l' : list Q) (k : nat) :
  Forall2 Qeq l l' -> nth k l 0 == nth k l' 0.
Proof.
  intros H. revert k. induction H as [|a b l l' Hab H IH]; intros [|k]; simpl;
    try reflexivity; auto.
Qed.

(** Counting is blind to the order and to the fractions. *)
Lemma count_lt_permutation (v : Q) (l l' : list Q) :
  Permutation l l' -> count_lt v l = count_lt v l'.
Proof.
  unfold count_lt.
  induction 1 as [|x l l' _ IH|x y l|l l' l'' _ IH1 _ IH2]; simpl.
  - reflexivity.
  - destruct (negb (Qle_bool v x)); simpl; now rewrite IH.
  - destruct (negb (Qle_bool v x)), (negb (Qle_bool v y)); reflexivity.
  - now rewrite IH1.
Qed.

Lemma count_le_permutation (v : Q) (l l' : list Q) :
  Permutation l l' -> count_le v l = count_le v l'.
Proof.
  unfold count_le.
  induction 1 as [|x l l' _ IH|x y l|l l' l'' _ IH1 _ IH2]; simpl.
  - reflexivity.
  - destruct (Qle_bool x v); simpl; now rewrite IH.
  - destruct (Qle_bool x v), (Qle_bool y v); reflexivity.
  - now rewrite IH1.
Qed.

Lemma Qle_bool_compat (a b c d : Q) :
  a == b -> c == d -> Qle_bool a c = Qle_bool b d.
Proof.
  intros H1 H2. apply eq_true_iff_eq. rewrite !Qle_bool_iff.
  now rewrite H1, H2.
Qed.

Lemma count_lt_compat (v w : Q) (l l' : list Q) :
  v == w -> Forall2 Qeq l l' -> count_lt v l = count_lt w l'.
Proof.
  intros Hv H. unfold count_lt.
  induction H as [|a b l l' Hab H IH]; simpl; [reflexivity|].
  rewrite (Qle_bool_compat v w a b Hv Hab).
  destruct (negb (Qle_bool w b)); simpl; now rewrite IH.
Qed.

Lemma count_le_compat (v w : Q) (l l' : list Q) :
  v == w -> Forall2 Qeq l l' -> count_le v l = count_le w l'.
Proof.
  intros Hv H. unfold count_le.
  induction H as [|a b l l' Hab H IH]; simpl; [reflexivity|].
  rewrite (Qle_bool_compat a b v w Hab Hv).
  destruct (Qle_bool b w); simpl; now rewrite IH.
Qed.

Lemma count_lt_none (v : Q) (l : list Q) :
  Forall (Qle v) l -> count_lt v l = 0%nat.
Proof.
  unfold count_lt. induction 1 as [|x l Hx _ IH]; simpl; [reflexivity|].
  apply Qle_bool_iff in Hx. now rewrite Hx.
Qed.

(** In a sorted sample the entry at position [k] has rank [k]. *)
Lemma sorted_order_statistic (s : list Q) :
  StronglySorted Qle s ->
  forall k, (k < length s)%nat -> order_statistic s k (nth k s 0).
Proof.
  induction 1 as [|x s Hs IH Hx]; intros k Hk; simpl in Hk; [lia|].
  unfold order_statistic in *.
  destruct k as [|k]; simpl nth.
  - unfold count_lt, count_le; simpl.
    assert (E : Qle_bool x x = true) by (apply Qle_bool_iff, Qle_refl).
    rewrite E; simpl. fold (count_lt x s). rewrite (count_lt_none x s Hx). lia.
  - assert (Hk' : (k < length s)%nat) by lia.
    destruct (IH k Hk') as [H1 H2].
    assert (Hin : In (nth k s 0) s) by now apply nth_In.
    assert (E : Qle_bool x (nth k s 0) = true).
    { apply Qle_bool_iff. rewrite Forall_forall in Hx. now apply Hx. }
    unfold count_lt, count_le in *; simpl. rewrite E.
    destruct (negb (Qle_bool (nth k s 0) x)); simpl; lia.
Qed.

Lemma order_statistic_sortQ (l l' : list Q) (k : nat) :
  Forall2 Qeq l l' -> (k < length l)%nat ->
  order_statistic l' k (nth k (sortQ l) 0).
Proof.
  intros H Hk.
  assert (Hs := sorted_order_statistic (sortQ l) (sortQ_strongly_sorted l) k).
  rewrite sortQ_length in Hs. specialize (Hs Hk).
  unfold order_statistic in *.
  rewrite (count_lt_permutation _ _ _ (sortQ_permutation l)) in Hs.
  rewrite (count_le_permutation _ _ _ (sortQ_permutation l)) in Hs.
  rewrite (count_lt_compat _ _ l l' (Qeq_refl _) H) in Hs.
  rewrite (count_le_compat _ _ l l' (Qeq_refl _) H) in Hs.
  exact Hs.
Qed.

End Samples.

(** ** The median of an array of real numbers *)

Section Median.

Lemma insert_Fin (x : Q) (s : list Q) :
  insert (Fin x) (map Fin s) = map Fin (insertQ x s).
Proof.
  induction s as [|y s IH]; simpl; [reflexivity|].
  destruct (Qle_bool x y); simpl; [reflexivity | now rewrite IH].
Qed.

Lemma np_sort_Fin (l : list Q) : np_sort (map Fin l) = map Fin (sortQ l).
Proof.
  induction l as [|x l IH]; simpl; [reflexivity|].
  now rewrite IH, insert_Fin.
Qed.

Lemma slice_one {T : Type} (d : T) (s : list T) (k : nat) :
  (k < length s)%nat -> firstn 1 (skipn k s) = [nth k s d].
Proof.
  revert k. induction s as [|x s IH]; intros k Hk; simpl in Hk; [lia|].
  destruct k as [|k]; [reflexivity|]. simpl. apply IH. lia.
Qed.

Lemma slice_two {T : Type} (d : T) (s : list T) (k : nat) :
  (S k < length s)%nat -> firstn 2 (skipn k s) = [nth k s d; nth (S k) s d].
Proof.
  revert k. induction s as [|x s IH]; intros k Hk; simpl in Hk; [lia|].
  destruct k as [|k].
  - destruct s as [|y s]; simpl in *; [lia | reflexivity].
  - change (skipn (S k) (x :: s)) with (skipn k s).
    change (nth (S k) (x :: s) d) with (nth k s d).
    change (nth (S (S k)) (x :: s) d) with (nth (S k) s d).
    apply IH. lia.
Qed.

Lemma np_mean_one (x : Q) :
  np_mean [Fin x] = Fin (Qred (Qred (0 + x) / inject_Z 1)).
Proof. reflexivity. Qed.

Lemma np_mean_two (x y : Q) :
  np_mean [Fin x; Fin y] = Fin (Qred (Qred (Qred (0 + x) + y) / inject_Z 2)).
Proof. reflexivity. Qed.

(** What [np_median] returns on a non-empty array of real numbers. *)
Definition median_value (l : list Q) : Q :=
  let s := sortQ l in
  let n := length l in
  if Nat.odd n
  then Qred (Qred (0 + nth (Nat.div n 2) s 0) / inject_Z 1)
  else Qred (Qred (Qred (0 + nth (Nat.div n 2 - 1) s 0)
                   + nth (Nat.div n 2) s 0) / inject_Z 2).

Lemma last_Fin (s : list Q) : isnan (last (map Fin s) (Fin 0)) = false.
Proof.
  induction s as [|x [|y s] IH]; try reflexivity. exact IH.
Qed.

Lemma odd_half (n : nat) : Nat.odd n = true -> (Nat.div n 2 < n)%nat.
Proof.
  intros H. apply Nat.odd_spec in H. destruct H as [m ->].
  apply Nat.Div0.div_lt_upper_bound. lia.
Qed.

Lemma even_half (n : nat) :
  Nat.odd n = false -> n <> 0%nat ->
  (1 <= Nat.div n 2 /\ Nat.div n 2 < n)%nat.
Proof.
  intros H Hn. rewrite <- Nat.negb_even in H. apply negb_false_iff in H.
  apply Nat.even_spec in H. destruct H as [m ->].
  replace (2 * m)%nat with (m * 2)%nat by lia.
  rewrite Nat.div_mul by discriminate. lia.
Qed.

Lemma np_median_Fin (l : list Q) :
  l <> [] -> np_median (map Fin l) = Fin (median_value l).
Proof.
  intros Hl. unfold np_median, median_value.
  rewrite np_sort_Fin, length_map, last_Fin, andb_false_r.
  assert (Hn : length l <> 0%nat) by (destruct l; [congruence | discriminate]).
  rewrite !skipn_map, !firstn_map.
  destruct (Nat.odd (length l)) eqn:Hodd.
  - rewrite (slice_one 0) by (rewrite sortQ_length; now apply odd_half).
    apply np_mean_one.
  - destruct (even_half _ Hodd Hn) as [H1 H2].
    rewrite (slice_two 0) by (rewrite sortQ_length; lia).
    replace (S (Nat.div (length l) 2 - 1)) with (Nat.div (length l) 2) by lia.
    apply np_mean_two.
Qed.

(** The value is the midpoint of the ranks [(n-1)/2] and [n/2] of the
    sorted sample. *)
Lemma median_value_midpoint (l : list Q) :
  l <> [] ->
  median_value l ==
    (nth (Nat.div (length l - 1) 2) (sortQ l) 0
     + nth (Nat.div (length l) 2) (sortQ l) 0) / inject_Z 2.
Proof.
  intros Hl. unfold median_value.
  assert (Hn : length l <> 0%nat) by (destruct l; [congruence | discriminate]).
  destruct (Nat.odd (length l)) eqn:Hodd.
  - assert (E : Nat.div (length l - 1) 2 = Nat.div (length l) 2).
    { apply Nat.odd_spec in Hodd. destruct Hodd as [m Hm]. rewrite Hm.
      replace (2 * m + 1 - 1)%nat with (m * 2)%nat by lia.
      rewrite Nat.div_mul by discriminate.
      apply Nat.div_unique with (r := 1%nat); lia. }
    rewrite E, !Qred_correct. change (inject_Z 1) with 1.
    change (inject_Z 2) with 2. field.
  - assert (E : Nat.div (length l - 1) 2 = (Nat.div (length l) 2 - 1)%nat).
    { rewrite <- Nat.negb_even in Hodd. apply negb_false_iff in Hodd.
      apply Nat.even_spec in Hodd. destruct Hodd as [m Hm]. rewrite Hm.
      replace (2 * m)%nat with (m * 2)%nat by lia.
      rewrite Nat.div_mul by discriminate.
      destruct m as [|m]; [lia|].
      symmetry. apply Nat.div_unique with (r := 1%nat); lia. }
    rewrite E, !Qred_correct. change (inject_Z 2) with 2. field.
Qed.

Lemma median_value_canonical (l : list Q) :
  Qred (median_value l) = median_value l.
Proof.
  unfold median_value. destruct (Nat.odd (length l)); apply Qred_idem.
Qed.

End Median.

(** ** The function on sequences of real numbers *)

Section Reals.

(** The percentage error as the array operations compute it. *)
Definition ape_value (ap : Q * Q) : Q :=
  Qred (Qabs (Qred (Qred (fst ap - snd ap) / fst ap)) * inject_Z 100).

Lemma ape_Fin (a p : Q) :
  Qeq_bool a 0 = false -> ape (Fin a, Fin p) = Fin (ape_value (a, p)).
Proof.
  intros H. unfold ape, ape_value. cbn [fst snd fsub fdiv]. rewrite H.
  reflexivity.
Qed.

Lemma ape_value_pct_error (ap : Q * Q) : ape_value ap == pct_error ap.
Proof.
  unfold ape_value, pct_error. now rewrite !Qred_correct.
Qed.

Lemma ape_values_pct_errors (c : list (Q * Q)) :
  Forall2 Qeq (map ape_value c) (map pct_error c).
Proof.
  induction c as [|ap c IH]; simpl; constructor;
    [apply ape_value_pct_error | exact IH].
Qed.

Definition vals (xy : float * float) : Q * Q :=
  (value (fst xy), value (snd xy)).

Definition real_pair (xy : float * float) : Prop :=
  real_or_nan (fst xy) = true /\ real_or_nan (snd xy) = true.

Lemma in_sample_real (xy : float * float) :
  real_pair xy -> in_sample xy = true ->
  xy = (Fin (fst (vals xy)), Fin (snd (vals xy))) /\
  Qeq_bool (fst (vals xy)) 0 = false.
Proof.
  destruct xy as [[|s|a] [|t|b]]; unfold real_pair, in_sample; simpl;
    intros [H1 H2] H; try discriminate.
  split; [reflexivity|]. now apply negb_true_iff in H.
Qed.

Lemma real_pairs_combine (a p : list float) :
  reals_or_missing a = true -> reals_or_missing p = true ->
  Forall real_pair (combine a p).
Proof.
  unfold reals_or_missing. rewrite !forallb_forall. intros Ha Hp.
  apply Forall_forall. intros [x y] Hin. split; simpl.
  - apply Ha. eapply in_combine_l; eassumption.
  - apply Hp. eapply in_combine_r; eassumption.
Qed.

Lemma ape_sample_real (c : list (float * float)) :
  Forall real_pair c ->
  map ape (filter in_sample c)
  = map Fin (map ape_value (map vals (filter in_sample c))).
Proof.
  induction 1 as [|xy c Hxy _ IH]; simpl; [reflexivity|].
  destruct (in_sample xy) eqn:E; [|exact IH].
  destruct (in_sample_real xy Hxy E) as [Hf Hz].
  simpl. rewrite IH. f_equal.
  rewrite Hf at 1. rewrite (ape_Fin _ _ Hz). now destruct (vals xy).
Qed.

(** The result in terms of the surviving pairs of numbers. *)
Definition median_of_reals (c : list (Q * Q)) : float :=
  match c with
  | [] => NaN
  | _ => Fin (median_value (map ape_value c))
  end.

Lemma calc_median_ape_reals (y_true y_pred : list float) :
  length y_true = length y_pred ->
  reals_or_missing y_true = true -> reals_or_missing y_pred = true ->
  calc_median_ape y_true y_pred
  = Ok (median_of_reals (sample_values y_true y_pred)).
Proof.
  intros Hlen Ht Hp. rewrite (calc_median_ape_aligned _ _ Hlen). f_equal.
  unfold reference_median_ape, median_of_reals, sample_values.
  fold vals. change (fun xy => vals xy) with vals.
  assert (Hm := ape_sample_real _ (real_pairs_combine _ _ Ht Hp)).
  destruct (filter in_sample (combine y_true y_pred)) as [|xy c] eqn:E;
    [reflexivity|].
  rewrite Hm. apply np_median_Fin. discriminate.
Qed.

(** The returned number is the midpoint of the two middle ranks of the
    sorted percentage errors. *)
Lemma median_of_errors (c : list (Q * Q)) :
  c <> [] ->
  median_value (map ape_value c) ==
    (nth (Nat.div (length c - 1) 2) (sortQ (map pct_error c)) 0
     + nth (Nat.div (length c) 2) (sortQ (map pct_error c)) 0) / inject_Z 2.
Proof.
  intros Hc. rewrite median_value_midpoint by (destruct c; [congruence | discriminate]).
  rewrite length_map.
  assert (H := sortQ_compat _ _ (ape_values_pct_errors c)).
  now rewrite !(Forall2_Qeq_nth _ _ _ H).
Qed.

End Reals.

(** ** Positions and index permutations *)

Section Positions.

Context {T U : Type}.

(** Reading both sequences at every position gives the observation pairs. *)
Lemma pairs_by_position (d : T) (e : U) (xs : list T) (ys : list U) :
  length xs = length ys ->
  map (fun i => (nth i xs d, nth i ys e)) (seq 0 (length xs)) = combine xs ys.
Proof.
  revert ys. induction xs as [|x xs IH]; intros [|y ys] H; simpl in *;
    try discriminate; [reflexivity|].
  f_equal. rewrite <- seq_shift, map_map. apply IH. lia.
Qed.

Lemma map_filter_comm {V W : Type} (g : V -> W) (f : W -> bool) (l : list V) :
  map g (filter (fun i => f (g i)) l) = filter f (map g l).
Proof.
  induction l as [|i l IH]; simpl; [reflexivity|].
  destruct (f (g i)); simpl; now rewrite IH.
Qed.

Lemma combine_map_same {V : Type} (g : V -> T) (h : V -> U) (l : list V) :
  combine (map g l) (map h l) = map (fun i => (g i, h i)) l.
Proof.
  induction l as [|i l IH]; simpl; [reflexivity | now rewrite IH].
Qed.

Lemma filter_permutation (f : T -> bool) (l l' : list T) :
  Permutation l l' -> Permutation (filter f l) (filter f l').
Proof.
  induction 1 as [|x l l' _ IH|x y l|l l' l'' _ IH1 _ IH2]; simpl.
  - constructor.
  - destruct (f x); [now constructor | exact IH].
  - destruct (f x), (f y); try reflexivity. apply perm_swap.
  - now transitivity (filter f l').
Qed.

End Positions.

(** The pairs of the filtered sample set, read off its positions. *)
Lemma filtered_sample_pairs (actual predicted : list float) :
  length actual = length predicted ->
  map (fun i => (nth i actual NaN, nth i predicted NaN))
      (filtered_sample_set actual predicted)
  = filter in_sample (combine actual predicted).
Proof.
  intros H. unfold filtered_sample_set.
  rewrite (map_filter_comm (fun i => (nth i actual NaN, nth i predicted NaN))).
  now rewrite pairs_by_position.
Qed.

Lemma filtered_sample_set_empty (actual predicted : list float) :
  length actual = length predicted ->
  filtered_sample_set actual predicted = [] <->
  filter in_sample (combine actual predicted) = [].
Proof.
  intros H. rewrite <- (filtered_sample_pairs _ _ H).
  split; intros E.
  - now rewrite E.
  - now apply map_eq_nil in E.
Qed.

(** Rearranging a sequence along a list of positions. *)
Definition permute (sigma : list nat) (y : list float) : list float :=
  map (fun i => nth i y NaN) sigma.

(** The result depends on the observation pairs only up to their order. *)
Lemma reference_median_ape_order_free (a p a' p' : list float) :
  Permutation (combine a p) (combine a' p') ->
  reference_median_ape a p = reference_median_ape a' p'.
Proof.
  intros H. unfold reference_median_ape.
  apply (filter_permutation in_sample) in H.
  destruct (filter in_sample (combine a p)) as [|xy c] eqn:E.
  - apply Permutation_nil in H. now rewrite H.
  - destruct (filter in_sample (combine a' p')) as [|xy' c'] eqn:E'.
    + apply Permutation_sym, Permutation_nil in H. discriminate.
    + apply np_median_order_free.
      * now apply Permutation_map.
      * apply Forall_forall. intros v Hv. apply in_map_iff in Hv.
        destruct Hv as [w [<- _]]. apply ape_canonical.
Qed.

(** ** Properties of the accuracy evaluator *)

(** C6. On equal-length inputs the function, which removes missing values
    first and zero actuals second, returns what the reference computation
    returns: the median of the percentage errors of the pairs selected in one
    pass by the conjunction of the three conditions. *)
Theorem calc_median_ape_refines_reference (y_true y_pred : list float) :
  length y_true = length y_pred ->
  calc_median_ape y_true y_pred = Ok (reference_median_ape y_true y_pred).
Proof. apply calc_median_ape_aligned. Qed.

Lemma calc_median_ape_refines_reference_witness :
  length [Fin 4; NaN; Fin 0; Fin 8] = length [Fin 5; Fin 1; Fin 3; NaN] /\
  calc_median_ape [Fin 4; NaN; Fin 0; Fin 8] [Fin 5; Fin 1; Fin 3; NaN]
  = Ok (reference_median_ape [Fin 4; NaN; Fin 0; Fin 8]
                             [Fin 5; Fin 1; Fin 3; NaN]).
Proof.
  split; [reflexivity|].
  apply (calc_median_ape_refines_reference
           [Fin 4; NaN; Fin 0; Fin 8] [Fin 5; Fin 1; Fin 3; NaN]).
  reflexivity.
Defined.

(** C3. On equal-length inputs, whatever their entries, the function returns
    a value and raises nothing; on empty input, and on input where every
    position misses its actual or its predicted value, that value is NaN. *)
Theorem calc_median_ape_never_raises (y_true y_pred : list float) :
  length y_true = length y_pred ->
  (exists r, calc_median_ape y_true y_pred = Ok r) /\
  (y_true = [] -> calc_median_ape y_true y_pred = Ok NaN) /\
  (Forall (fun xy => isnan (fst xy) || isnan (snd xy) = true)
          (combine y_true y_pred) ->
   calc_median_ape y_true y_pred = Ok NaN).
Proof.
  intros H. rewrite (calc_median_ape_aligned _ _ H).
  split; [eauto|]. split.
  - intros ->. reflexivity.
  - intros Hall. f_equal. unfold reference_median_ape.
    replace (filter in_sample (combine y_true y_pred)) with (@nil (float * float));
      [reflexivity|].
    symmetry. induction Hall as [|xy c Hxy _ IH]; simpl; [reflexivity|].
    unfold in_sample at 1. rewrite <- negb_orb, Hxy. exact IH.
Qed.

Lemma calc_median_ape_never_raises_witness :
  length [NaN; Fin 3] = length [Fin 1; NaN] /\
  calc_median_ape [NaN; Fin 3] [Fin 1; NaN] = Ok NaN.
Proof.
  split; [reflexivity|].
  apply (calc_median_ape_never_raises [NaN; Fin 3] [Fin 1; NaN]).
  - reflexivity.
  - repeat constructor.
Defined.

(** C7.  The claim as stated fails: an empty sequence against a sequence of
    one entry gives an empty mask, an empty mask selects nothing without a
    length check, and the function returns NaN instead of raising. *)
Lemma calc_median_ape_length_mismatch_counterexample :
  length (@nil float) <> length [Fin 1] /\
  calc_median_ape [] [Fin 1] = Ok NaN /\
  calc_median_ape [Fin 1] [] = Ok NaN /\
  ~ (forall y_true y_pred : list float,
        length y_true <> length y_pred ->
        exists e, calc_median_ape y_true y_pred = Raise e).
Proof.
  split; [discriminate|]. split; [reflexivity|]. split; [reflexivity|].
  intros H. destruct (H [] [Fin 1]) as [e He]; discriminate.
Qed.

(** C7, amended.  On inputs of different lengths the function raises (the
    mask computation fails to broadcast, or indexing with a mask of the wrong
    length fails), except when one input is empty and the other has exactly
    one entry: then it returns NaN. *)
Theorem calc_median_ape_length_mismatch (y_true y_pred : list float) :
  length y_true <> length y_pred ->
  ((length y_true + length y_pred <> 1)%nat ->
   exists e, calc_median_ape y_true y_pred = Raise e) /\
  ((length y_true + length y_pred = 1)%nat ->
   calc_median_ape y_true y_pred = Ok NaN).
Proof.
  intros H.
  unfold calc_median_ape, astype_float, np_or, np_isnan, np_invert, broadcast2,
    getitem_mask.
  rewrite !length_map.
  destruct (Nat.eqb_spec (length y_true) (length y_pred)) as [E|_];
    [contradiction|].
  destruct y_true as [|x [|x' a]]; destruct y_pred as [|y [|y' p]];
    cbn [length map bind Nat.eqb orb] in *; rewrite ?length_map;
    cbn [length map bind Nat.eqb orb];
    (split; [intros Hs | intros Hs]);
    try congruence; try reflexivity; try (simpl in Hs; lia); eauto.
  rewrite Nat.eqb_refl. cbn [bind]. eauto.
Qed.

Lemma calc_median_ape_length_mismatch_witness :
  length [Fin 1] <> length [Fin 2; Fin 3; Fin 4] /\
  exists e, calc_median_ape [Fin 1] [Fin 2; Fin 3; Fin 4] = Raise e.
Proof.
  split; [discriminate|].
  apply (calc_median_ape_length_mismatch [Fin 1] [Fin 2; Fin 3; Fin 4]).
  - discriminate.
  - discriminate.
Defined.

(** C4. On [[10, 0, 20]] against [[11, 5, 18]] the function returns 10, and
    position 1 is outside the filtered sample set although a prediction
    exists for it; on [[10, NaN, 20]] against the same predictions it returns
    10 as well, position 1 being dropped for its missing actual. *)
Theorem calc_median_ape_examples :
  calc_median_ape [Fin 10; Fin 0; Fin 20] [Fin 11; Fin 5; Fin 18]
  = Ok (Fin 10) /\
  filtered_sample_set [Fin 10; Fin 0; Fin 20] [Fin 11; Fin 5; Fin 18]
  = [0; 2]%nat /\
  calc_median_ape [Fin 10; NaN; Fin 20] [Fin 11; Fin 5; Fin 18]
  = Ok (Fin 10) /\
  filtered_sample_set [Fin 10; NaN; Fin 20] [Fin 11; Fin 5; Fin 18]
  = [0; 2]%nat.
Proof. repeat split; reflexivity. Qed.

(** C8. Rearranging both sequences along the same permutation of their
    positions leaves the result unchanged. *)
Theorem calc_median_ape_permutation (sigma : list nat)
        (y_true y_pred : list float) :
  length y_true = length y_pred ->
  Permutation sigma (seq 0 (length y_true)) ->
  calc_median_ape (permute sigma y_true) (permute sigma y_pred)
  = calc_median_ape y_true y_pred.
Proof.
  intros Hlen Hs.
  rewrite (calc_median_ape_aligned y_true y_pred Hlen).
  rewrite calc_median_ape_aligned by (unfold permute; now rewrite !length_map).
  f_equal. apply reference_median_ape_order_free.
  unfold permute. rewrite combine_map_same.
  rewrite <- (pairs_by_position NaN NaN y_true y_pred Hlen).
  now apply Permutation_map.
Qed.

Lemma calc_median_ape_permutation_witness :
  let y_true := [Fin 10; NaN; Fin 20; Fin 5] in
  let y_pred := [Fin 11; Fin 5; Fin 18; Fin 4] in
  length y_true = length y_pred /\
  calc_median_ape [Fin 20; Fin 10; Fin 5; NaN] [Fin 18; Fin 11; Fin 4; Fin 5]
  = calc_median_ape y_true y_pred.
Proof.
  split; [reflexivity|].
  apply (calc_median_ape_permutation [2; 0; 3; 1]%nat
           [Fin 10; NaN; Fin 20; Fin 5] [Fin 11; Fin 5; Fin 18; Fin 4]).
  - reflexivity.
  - simpl. apply Permutation_sym.
    apply (perm_trans (l' := [0; 2; 1; 3]%nat)).
    + constructor. apply perm_swap.
    + apply (perm_trans (l' := [2; 0; 1; 3]%nat)); [apply perm_swap|].
      do 2 constructor. apply perm_swap.
Defined.

(** ** The statistical median *)

Section StatisticalMedian.

Lemma count_le_below (v w : Q) (l : list Q) :
  v < w -> (count_le v l <= count_lt w l)%nat.
Proof.
  intros Hvw. unfold count_le, count_lt.
  induction l as [|x l IH]; simpl; [lia|].
  destruct (Qle_bool x v) eqn:Hxv.
  - apply Qle_bool_iff in Hxv.
    assert (E : Qle_bool w x = false).
    { destruct (Qle_bool w x) eqn:Hwx; [|reflexivity].
      apply Qle_bool_iff in Hwx. exfalso.
      apply (Qlt_irrefl v). eapply Qlt_le_trans; [exact Hvw|].
      eapply Qle_trans; eassumption. }
    rewrite E. simpl. lia.
  - destruct (negb (Qle_bool w x)); simpl; lia.
Qed.

(** A rank is held by one number only. *)
Lemma order_statistic_unique (l : list Q) (k : nat) (v w : Q) :
  order_statistic l k v -> order_statistic l k w -> v == w.
Proof.
  intros [Hv1 Hv2] [Hw1 Hw2].
  destruct (Q_dec v w) as [[H|H]|H]; [| |exact H]; exfalso.
  - pose proof (count_le_below v w l H). lia.
  - pose proof (count_le_below w v l H). lia.
Qed.

Lemma statistical_median_unique (l : list Q) (m m' : Q) :
  statistical_median l m -> statistical_median l m' -> m == m'.
Proof.
  intros (lo & hi & Hlo & Hhi & Hm) (lo' & hi' & Hlo' & Hhi' & Hm').
  rewrite Hm, Hm'.
  rewrite (order_statistic_unique _ _ _ _ Hlo Hlo').
  rewrite (order_statistic_unique _ _ _ _ Hhi Hhi').
  reflexivity.
Qed.

Lemma half_below (n : nat) :
  n <> 0%nat -> (Nat.div (n - 1) 2 < n /\ Nat.div n 2 < n)%nat.
Proof.
  intros Hn. split; apply Nat.Div0.div_lt_upper_bound; lia.
Qed.

Lemma nonzero_Qeq_bool (x : Q) : ~ x == 0 -> Qeq_bool x 0 = false.
Proof.
  intros H. destruct (Qeq_bool x 0) eqn:E; [|reflexivity].
  apply Qeq_bool_iff in E. contradiction.
Qed.

End StatisticalMedian.

Lemma reals_Fin (l : list Q) : reals_or_missing (map Fin l) = true.
Proof. unfold reals_or_missing. induction l; simpl; auto. Qed.

(** C2. On equal-length sequences of real numbers, some possibly missing,
    the function returns NaN exactly when the filtered sample set is
    empty. *)
Theorem calc_median_ape_nan_iff (y_true y_pred : list float) :
  length y_true = length y_pred ->
  reals_or_missing y_true = true -> reals_or_missing y_pred = true ->
  calc_median_ape y_true y_pred = Ok NaN <->
  filtered_sample_set y_true y_pred = [].
Proof.
  intros Hlen Ht Hp.
  rewrite (calc_median_ape_reals _ _ Hlen Ht Hp).
  rewrite (filtered_sample_set_empty _ _ Hlen).
  unfold sample_values.
  destruct (filter in_sample (combine y_true y_pred)); simpl.
  - split; reflexivity.
  - split; discriminate.
Qed.

Lemma calc_median_ape_nan_iff_witness :
  length [Fin 0; NaN] = length [Fin 1; Fin 2] /\
  reals_or_missing [Fin 0; NaN] = true /\
  reals_or_missing [Fin 1; Fin 2] = true /\
  (calc_median_ape [Fin 0; NaN] [Fin 1; Fin 2] = Ok NaN <->
   filtered_sample_set [Fin 0; NaN] [Fin 1; Fin 2] = []).
Proof.
  repeat (split; [reflexivity|]).
  apply (calc_median_ape_nan_iff [Fin 0; NaN] [Fin 1; Fin 2]); reflexivity.
Defined.

Section Sign.

Lemma pct_error_nonneg (ap : Q * Q) : 0 <= pct_error ap.
Proof.
  unfold pct_error. apply Qmult_le_0_compat; [apply Qabs_nonneg | discriminate].
Qed.

Lemma nth_nonneg (s : list Q) (k : nat) : Forall (Qle 0) s -> 0 <= nth k s 0.
Proof.
  intros H. revert k. induction H as [|x s Hx _ IH]; intros [|k]; simpl;
    auto; apply Qle_refl.
Qed.

Lemma sorted_errors_nonneg (c : list (Q * Q)) :
  Forall (Qle 0) (sortQ (map pct_error c)).
Proof.
  apply (Permutation_Forall (Permutation_sym (sortQ_permutation _))).
  apply Forall_forall. intros e He. apply in_map_iff in He.
  destruct He as [ap [<- _]]. apply pct_error_nonneg.
Qed.

Lemma pct_error_self (a : Q) : pct_error (a, a) == 0.
Proof.
  unfold pct_error. cbn [fst snd].
  setoid_replace (a - a) with 0 by ring.
  unfold Qdiv. now rewrite Qmult_0_l.
Qed.

Lemma nth_zero (s : list Q) (k : nat) :
  Forall (fun e => e == 0) s -> nth k s 0 == 0.
Proof.
  intros H. revert k. induction H as [|x s Hx _ IH]; intros [|k]; simpl;
    auto; reflexivity.
Qed.

(** A sequence paired with itself keeps its non-zero entries. *)
Lemma sample_values_self (y : list Q) :
  sample_values (map Fin y) (map Fin y)
  = map (fun a => (a, a)) (filter (fun a => negb (Qeq_bool a 0)) y).
Proof.
  unfold sample_values. induction y as [|a y IH]; [reflexivity|].
  cbn [map combine filter]. unfold in_sample at 1.
  cbn [fst snd isnan negb andb fne].
  destruct (Qeq_bool a 0); cbn [negb map fst snd value]; now rewrite IH.
Qed.

Lemma nonzero_kept (y : list Q) :
  Exists (fun a => ~ a == 0) y ->
  filter (fun a => negb (Qeq_bool a 0)) y <> [].
Proof.
  induction 1 as [a y Ha|a y _ IH]; simpl.
  - now rewrite (nonzero_Qeq_bool a Ha).
  - destruct (Qeq_bool a 0); [exact IH | discriminate].
Qed.

End Sign.

(** C10. A sequence of real numbers with nothing missing and at least one
    non-zero entry, taken as both the actual and the predicted values, gives
    exactly 0. *)
Theorem calc_median_ape_perfect_forecast (y : list Q) :
  Exists (fun a => ~ a == 0) y ->
  calc_median_ape (map Fin y) (map Fin y) = Ok (Fin 0).
Proof.
  intros Hy.
  rewrite calc_median_ape_reals by (try apply reals_Fin; reflexivity).
  rewrite sample_values_self.
  pose proof (nonzero_kept y Hy) as Hk.
  set (z := filter (fun a => negb (Qeq_bool a 0)) y) in *.
  set (c := map (fun a => (a, a)) z).
  assert (Hc : c <> []) by (subst c; destruct z; [congruence | discriminate]).
  unfold median_of_reals. destruct c as [|ap c'] eqn:Ec; [congruence|].
  rewrite <- Ec. do 2 f_equal.
  rewrite <- median_value_canonical.
  change 0 with (Qred 0). apply Qred_complete.
  rewrite (median_of_errors c) by (rewrite Ec; discriminate).
  assert (Hz : Forall (fun e => e == 0) (sortQ (map pct_error c))).
  { apply (Permutation_Forall (Permutation_sym (sortQ_permutation _))).
    apply Forall_forall. intros e He. apply in_map_iff in He.
    destruct He as [ap' [<- Hin]]. subst c. apply in_map_iff in Hin.
    destruct Hin as [a [<- _]]. apply pct_error_self. }
  rewrite !(nth_zero _ _ Hz). reflexivity.
Qed.

Lemma calc_median_ape_perfect_forecast_witness :
  Exists (fun a => ~ a == 0) [0; 7; -2; 0] /\
  calc_median_ape (map Fin [0; 7; -2; 0]) (map Fin [0; 7; -2; 0]) = Ok (Fin 0).
Proof.
  assert (H : Exists (fun a => ~ a == 0) [0; 7; -2; 0])
    by (apply Exists_cons_tl, Exists_cons_hd; discriminate).
  split; [exact H|].
  apply (calc_median_ape_perfect_forecast [0; 7; -2; 0] H).
Defined.

(** ** Further properties of the error function *)

(** *** Positions outside the filtered sample *)

Lemma combine_append {T U : Type} (xs xs' : list T) (ys ys' : list U) :
  length xs = length ys ->
  combine (xs ++ xs') (ys ++ ys') = combine xs ys ++ combine xs' ys'.
Proof.
  revert ys. induction xs as [|x xs IH]; intros [|y ys] H; simpl in *;
    try discriminate; [reflexivity|].
  f_equal. apply IH. lia.
Qed.

(** X1. A position whose pair fails the filter (a missing actual, a missing
    prediction or a zero actual) has no influence: removing it from both
    sequences leaves the result unchanged, whatever the prediction there. *)
Theorem calc_median_ape_drop_position (t1 t2 p1 p2 : list float)
        (x y : float) :
  length t1 = length p1 -> length t2 = length p2 ->
  in_sample (x, y) = false ->
  calc_median_ape (t1 ++ x :: t2) (p1 ++ y :: p2)
  = calc_median_ape (t1 ++ t2) (p1 ++ p2).
Proof.
  intros H1 H2 Hxy.
  rewrite !calc_median_ape_aligned
    by (rewrite !length_app; simpl; lia).
  f_equal. unfold reference_median_ape.
  rewrite !combine_append by assumption.
  cbn [combine]. rewrite !filter_app. cbn [filter]. now rewrite Hxy.
Qed.

Lemma calc_median_ape_drop_position_witness :
  in_sample (Fin 0, Fin 0) = false /\
  calc_median_ape ([Fin 4] ++ Fin 0 :: [Fin 8]) ([Fin 5] ++ Fin 0 :: [Fin 6])
  = calc_median_ape ([Fin 4] ++ [Fin 8]) ([Fin 5] ++ [Fin 6]).
Proof.
  split; [reflexivity|].
  apply (calc_median_ape_drop_position
           [Fin 4] [Fin 8] [Fin 5] [Fin 6] (Fin 0) (Fin 0));
    reflexivity.
Defined.

(** *** Which exception a length mismatch raises *)

(** X2. When the lengths differ and neither is 1, the two masks cannot be
    broadcast and the function raises ValueError; when exactly one input has
    length 1 and the other has at least two entries, the mask takes the
    other length and indexing with it raises IndexError. *)
Theorem calc_median_ape_mismatch_kind (y_true y_pred : list float) :
  length y_true <> length y_pred ->
  (length y_true <> 1%nat -> length y_pred <> 1%nat ->
   calc_median_ape y_true y_pred = Raise ValueError) /\
  ((length y_true = 1 /\ 2 <= length y_pred)%nat \/
   (length y_pred = 1 /\ 2 <= length y_true)%nat ->
   calc_median_ape y_true y_pred = Raise IndexError).
Proof.
  intros H.
  unfold calc_median_ape, astype_float, np_or, np_isnan, np_invert, broadcast2,
    getitem_mask.
  rewrite !length_map.
  destruct (Nat.eqb_spec (length y_true) (length y_pred)) as [E|_];
    [contradiction|].
  destruct y_true as [|x [|x' a]]; destruct y_pred as [|y [|y' p]];
    cbn [length map bind Nat.eqb orb] in *; rewrite ?length_map;
    cbn [length map bind Nat.eqb orb];
    (split; [intros Ha Hp | intros [[Ha Hp]|[Ha Hp]]]);
    try congruence; try reflexivity; try discriminate; try lia.
  rewrite Nat.eqb_refl. reflexivity.
Qed.

Lemma calc_median_ape_mismatch_kind_witness :
  length [Fin 1; Fin 2] <> length [Fin 1; Fin 2; Fin 3] /\
  calc_median_ape [Fin 1; Fin 2] [Fin 1; Fin 2; Fin 3] = Raise ValueError.
Proof.
  split; [discriminate|].
  apply (calc_median_ape_mismatch_kind [Fin 1; Fin 2] [Fin 1; Fin 2; Fin 3]);
    discriminate.
Defined.

(** *** Infinite actual values *)

Section Infinite.

Lemma insert_sorted (x : float) (s : list float) :
  Sorted (fun u v => fle u v = true) s ->
  Sorted (fun u v => fle u v = true) (insert x s).
Proof.
  induction 1 as [|y s Hs IH Hd]; simpl; [repeat constructor|].
  destruct (fle x y) eqn:Hxy.
  - repeat constructor; assumption.
  - assert (Hyx : fle y x = true)
      by (destruct (fle_total x y); congruence).
    constructor; [exact IH|].
    destruct s as [|z s]; simpl; [now constructor|].
    destruct (fle x z); constructor; [exact Hyx|].
    now inversion Hd.
Qed.

Lemma np_sort_sorted (a : list float) :
  StronglySorted (fun u v => fle u v = true) (np_sort a).
Proof.
  apply Sorted_StronglySorted.
  - intros u v w. apply fle_trans.
  - induction a as [|x a IH]; simpl; [constructor | now apply insert_sorted].
Qed.

Lemma fle_NaN (z : float) : fle NaN z = true -> z = NaN.
Proof. destruct z as [|[]|q]; simpl; congruence. Qed.

(** NaN sorts last. *)
Lemma sorted_last_NaN (s : list float) (d : float) :
  StronglySorted (fun u v => fle u v = true) s -> In NaN s -> last s d = NaN.
Proof.
  induction 1 as [|y s Hs IH Hy]; intros Hin; [contradiction|].
  destruct s as [|z s].
  - destruct Hin as [->|[]]. reflexivity.
  - change (last (y :: z :: s) d) with (last (z :: s) d). apply IH.
    destruct Hin as [->|Hin]; [|exact Hin].
    left. inversion Hy; subst. now apply fle_NaN.
Qed.

(** One NaN entry makes the median NaN. *)
Lemma np_median_NaN (a : list float) : In NaN a -> np_median a = NaN.
Proof.
  intros Hin. unfold np_median.
  assert (Hs : In NaN (np_sort a))
    by (eapply Permutation_in; [apply Permutation_sym, np_sort_permutation|exact Hin]).
  rewrite (sorted_last_NaN _ _ (np_sort_sorted a) Hs).
  destruct a; [contradiction | reflexivity].
Qed.

Lemma ape_infinite_actual (s : bool) (y : float) : ape (Inf s, y) = NaN.
Proof.
  destruct y as [|t|q]; try reflexivity.
  unfold ape. cbn [fst snd fsub]. now destruct (Bool.eqb s t).
Qed.

End Infinite.

(** X3. NaN filtering does not remove infinities: when some position holds an
    infinite actual value and a prediction that is not missing, the pair
    survives both filters, its percentage error is NaN and so is the
    result. *)
Theorem calc_median_ape_infinite_actual (y_true y_pred : list float)
        (s : bool) (y : float) :
  length y_true = length y_pred ->
  In (Inf s, y) (combine y_true y_pred) -> isnan y = false ->
  calc_median_ape y_true y_pred = Ok NaN.
Proof.
  intros Hlen Hin Hy. rewrite (calc_median_ape_aligned _ _ Hlen). f_equal.
  unfold reference_median_ape.
  assert (Hf : In (Inf s, y) (filter in_sample (combine y_true y_pred))).
  { apply filter_In. split; [exact Hin|].
    unfold in_sample. cbn [fst snd isnan fne]. now rewrite Hy. }
  destruct (filter in_sample (combine y_true y_pred)) as [|xy c] eqn:E;
    [reflexivity|].
  apply np_median_NaN. rewrite <- (ape_infinite_actual s y).
  now apply in_map.
Qed.

Lemma calc_median_ape_infinite_actual_witness :
  length [Fin 2; Inf false; Fin 4] = length [Fin 1; Fin 3; Fin 4] /\
  calc_median_ape [Fin 2; Inf false; Fin 4] [Fin 1; Fin 3; Fin 4] = Ok NaN.
Proof.
  split; [reflexivity|].
  apply (calc_median_ape_infinite_actual
           [Fin 2; Inf false; Fin 4] [Fin 1; Fin 3; Fin 4] false (Fin 3)).
  - reflexivity.
  - right. left. reflexivity.
  - reflexivity.
Defined.

(** *** The value returned on real samples *)

Section Values.


(** A sample whose errors all equal [v] has median [v]. *)
Lemma median_value_constant (c : list (Q * Q)) (v : Q) :
  c <> [] -> Forall (fun ap => pct_error ap == v) c ->
  median_value (map ape_value c) = Qred v.
Proof.
  intros Hc Hv. rewrite <- median_value_canonical. apply Qred_complete.
  rewrite (median_of_errors c Hc).
  assert (Hs : Forall (fun e => e == v) (sortQ (map pct_error c))).
  { apply (Permutation_Forall (Permutation_sym (sortQ_permutation _))).
    apply Forall_forall. intros e He. apply in_map_iff in He.
    destruct He as [ap [<- Hin]]. rewrite Forall_forall in Hv. now apply Hv. }
  destruct (half_below (length c)) as [H1 H2];
    [destruct c; [congruence | discriminate]|].
  assert (Hn : forall k, (k < length c)%nat ->
                         nth k (sortQ (map pct_error c)) 0 == v).
  { intros k Hk. rewrite Forall_forall in Hs. apply Hs, nth_In.
    now rewrite sortQ_length, length_map. }
  rewrite (Hn _ H1), (Hn _ H2). change (inject_Z 2) with 2. field.
Qed.

(** The surviving pairs of two sequences without missing values. *)
Lemma sample_values_Fin (actual predicted : list Q) :
  sample_values (map Fin actual) (map Fin predicted)
  = filter (fun ap => negb (Qeq_bool (fst ap) 0)) (combine actual predicted).
Proof.
  unfold sample_values. revert predicted.
  induction actual as [|a actual IH]; intros [|p predicted]; try reflexivity.
  cbn [map combine filter]. unfold in_sample at 1.
  cbn [fst snd isnan negb andb fne].
  destruct (Qeq_bool a 0); cbn [negb map fst snd value]; now rewrite IH.
Qed.

End Values.

(** X4. Predicting zero everywhere scores exactly 100: for a sequence of real
    numbers with nothing missing and at least one non-zero entry, the result
    against the all-zero prediction is 100. *)
Theorem calc_median_ape_zero_forecast (y : list Q) :
  Exists (fun a => ~ a == 0) y ->
  calc_median_ape (map Fin y) (map (fun _ => Fin 0) y) = Ok (Fin 100).
Proof.
  intros Hy.
  replace (map (fun _ : Q => Fin 0) y) with (map Fin (map (fun _ => 0) y))
    by now rewrite map_map.
  rewrite calc_median_ape_reals
    by (try apply reals_Fin; now rewrite !length_map).
  rewrite sample_values_Fin.
  set (c := filter _ _).
  assert (Hc : c <> []).
  { subst c. induction Hy as [a y Ha|a y _ IH]; simpl.
    - now rewrite (nonzero_Qeq_bool a Ha).
    - destruct (Qeq_bool a 0); [exact IH | discriminate]. }
  assert (Hv : Forall (fun ap => pct_error ap == 100) c).
  { subst c. apply Forall_forall. intros [a p] Hin.
    apply filter_In in Hin. destruct Hin as [Hin Hnz].
    assert (Hp : p = 0).
    { apply in_combine_r in Hin. apply in_map_iff in Hin.
      now destruct Hin as [_ [<- _]]. }
    subst p. cbn [fst] in Hnz. apply negb_true_iff, Qeq_bool_neq in Hnz.
    unfold pct_error. cbn [fst snd].
    setoid_replace ((a - 0) / a) with 1 by (field; exact Hnz).
    reflexivity. }
  unfold median_of_reals. destruct c as [|ap c'] eqn:Ec; [congruence|].
  rewrite <- Ec in *. do 2 f_equal.
  now rewrite (median_value_constant c 100 Hc Hv).
Qed.

Lemma calc_median_ape_zero_forecast_witness :
  Exists (fun a => ~ a == 0) [3; 0; -8] /\
  calc_median_ape (map Fin [3; 0; -8]) (map (fun _ => Fin 0) [3; 0; -8])
  = Ok (Fin 100).
Proof.
  assert (H : Exists (fun a => ~ a == 0) [3; 0; -8])
    by (apply Exists_cons_hd; discriminate).
  split; [exact H|].
  apply (calc_median_ape_zero_forecast [3; 0; -8] H).
Defined.

Lemma Forall2_Qeq_refl (l : list Q) : Forall2 Qeq l l.
Proof. induction l; constructor; [reflexivity | assumption]. Qed.

(** *** Robustness and symmetry *)

Section Majority.

Definition exact (ap : Q * Q) : bool := Qeq_bool (fst ap) (snd ap).

Lemma pct_error_exact (ap : Q * Q) : exact ap = true -> pct_error ap == 0.
Proof.
  unfold exact. intros H. apply Qeq_bool_iff in H.
  unfold pct_error. setoid_replace (fst ap - snd ap) with 0 by (rewrite H; ring).
  unfold Qdiv. now rewrite Qmult_0_l.
Qed.

Lemma count_exact (c : list (Q * Q)) :
  (length (filter exact c) <= count_le 0 (map pct_error c))%nat.
Proof.
  unfold count_le. induction c as [|ap c IH]; simpl; [lia|].
  destruct (exact ap) eqn:E.
  - assert (Hz : Qle_bool (pct_error ap) 0 = true).
    { apply Qle_bool_iff. rewrite (pct_error_exact ap E). apply Qle_refl. }
    rewrite Hz. simpl. lia.
  - destruct (Qle_bool (pct_error ap) 0); simpl; lia.
Qed.

(** With more than half of the errors at zero, both middle ranks are zero. *)
Lemma majority_rank_zero (c : list (Q * Q)) (k : nat) :
  (length c < 2 * length (filter exact c))%nat ->
  (k <= Nat.div (length c) 2)%nat ->
  nth k (sortQ (map pct_error c)) 0 == 0.
Proof.
  intros Hmaj Hk.
  assert (Hh : (2 * Nat.div (length c) 2 <= length c)%nat)
    by (apply Nat.Div0.mul_div_le).
  pose proof (filter_length_le exact c) as Hf.
  set (h := Nat.div (length c) 2) in *. clearbody h.
  assert (Hlt : (k < length (map pct_error c))%nat)
    by (rewrite length_map; lia).
  destruct (order_statistic_sortQ _ _ k (Forall2_Qeq_refl _) Hlt) as [Hv _].
  apply Qle_antisym; [|apply nth_nonneg, sorted_errors_nonneg].
  apply Qnot_lt_le. intros Hpos.
  pose proof (count_le_below _ _ (map pct_error c) Hpos).
  pose proof (count_exact c). lia.
Qed.

End Majority.

(** X9. A minority of bad forecasts cannot move the result: on equal-length
    sequences of real numbers, some possibly missing, when more than half of
    the surviving pairs have a prediction equal to the actual value, the
    result is exactly 0 whatever the other predictions are. *)
Theorem calc_median_ape_majority_exact (y_true y_pred : list float) :
  length y_true = length y_pred ->
  reals_or_missing y_true = true -> reals_or_missing y_pred = true ->
  (length (sample_values y_true y_pred)
   < 2 * length (filter exact (sample_values y_true y_pred)))%nat ->
  calc_median_ape y_true y_pred = Ok (Fin 0).
Proof.
  intros Hlen Ht Hp Hmaj.
  rewrite (calc_median_ape_reals _ _ Hlen Ht Hp).
  set (c := sample_values y_true y_pred) in *.
  assert (Hc : c <> []) by (intros E; rewrite E in Hmaj; simpl in Hmaj; lia).
  unfold median_of_reals. destruct c as [|ap c'] eqn:Ec; [congruence|].
  rewrite <- Ec in *. do 2 f_equal.
  rewrite <- median_value_canonical. change 0 with (Qred 0).
  apply Qred_complete. rewrite (median_of_errors c Hc).
  rewrite (majority_rank_zero c _ Hmaj)
    by (apply Nat.Div0.div_le_mono; lia).
  rewrite (majority_rank_zero c _ Hmaj) by lia.
  reflexivity.
Qed.

Lemma calc_median_ape_majority_exact_witness :
  calc_median_ape [Fin 5; Fin 0; Fin 2; Fin 9; NaN]
                  [Fin 5; Fin 3; Fin 700; Fin 9; Fin 1] = Ok (Fin 0).
Proof.
  apply (calc_median_ape_majority_exact
           [Fin 5; Fin 0; Fin 2; Fin 9; NaN]
           [Fin 5; Fin 3; Fin 700; Fin 9; Fin 1]); try reflexivity.
  vm_compute. lia.
Defined.




(** ** The function on binary64 values

    The same function with IEEE 754 binary64 cells: every operation rounds
    to nearest, ties to even, and overflows to an infinity. *)

Module Binary64.

Local Open Scope Z_scope.

Definition prec : Z := 53.
Definition emax : Z := 1024.

(** The binary64 value nearest to an integer. *)
Definition of_Z (z : Z) : spec_float := binary_normalize prec emax z 0 false.

Definition isnan (x : spec_float) : bool :=
  match x with S754_nan => true | _ => false end.

Definition fadd : spec_float -> spec_float -> spec_float := SFadd prec emax.
Definition fsub : spec_float -> spec_float -> spec_float := SFsub prec emax.
Definition fmul : spec_float -> spec_float -> spec_float := SFmul prec emax.
Definition fdiv : spec_float -> spec_float -> spec_float := SFdiv prec emax.
Definition fabs : spec_float -> spec_float := SFabs.

(** [x != y]: NaN differs from everything, the two zeros are equal. *)
Definition fne (x y : spec_float) : bool := negb (SFeqb x y).

(** The order [np.sort] uses: the numeric order, then NaN. *)
Definition fle (x y : spec_float) : bool :=
  match x, y with
  | _, S754_nan => true
  | S754_nan, _ => false
  | _, _ => SFleb x y
  end.

Definition np_isnan (a : list spec_float) : list bool := map isnan a.

Definition np_ne_scalar (a : list spec_float) (c : spec_float) : list bool :=
  map (fun x => fne x c) a.

Definition np_subtract (a b : list spec_float) : result (list spec_float) :=
  broadcast2 fsub a b.

Definition np_divide (a b : list spec_float) : result (list spec_float) :=
  broadcast2 fdiv a b.

Definition np_abs (a : list spec_float) : list spec_float := map fabs a.

Definition np_mul_scalar (a : list spec_float) (c : spec_float)
  : list spec_float :=
  map (fun x => fmul x c) a.

Fixpoint insert (x : spec_float) (s : list spec_float) : list spec_float :=
  match s with
  | [] => [x]
  | y :: s' => if fle x y then x :: s else y :: insert x s'
  end.

Fixpoint np_sort (a : list spec_float) : list spec_float :=
  match a with
  | [] => []
  | x :: a' => insert x (np_sort a')
  end.

(** [np.mean]: the sum, accumulated from zero, over the count. *)
Definition np_mean (a : list spec_float) : spec_float :=
  fdiv (fold_left fadd a (S754_zero false)) (of_Z (Z.of_nat (length a))).

(** [np.median], as in the exact model. *)
Definition np_median (a : list spec_float) : spec_float :=
  let part := np_sort a in
  let sz := length a in
  let index := Nat.div sz 2 in
  let middle :=
    if Nat.odd sz then firstn 1 (skipn index part)
    else firstn 2 (skipn (index - 1) part) in
  let rout := np_mean middle in
  if Nat.ltb 0 sz && isnan (last part (S754_zero false)) then S754_nan
  else rout.

(** [np.array(y).astype(float)]: the input already is a sequence of binary64
    cells. *)
Definition astype_float (y : list spec_float) : list spec_float := y.

Definition calc_median_ape (y_true y_pred : list spec_float)
  : result spec_float :=
  (let y_true := astype_float y_true in
   let y_pred := astype_float y_pred in
   na_t <- np_or (np_isnan y_true) (np_isnan y_pred) ;;
   y_true_rm_na <- getitem_mask y_true (np_invert na_t) ;;
   na_p <- np_or (np_isnan y_true) (np_isnan y_pred) ;;
   y_pred_rm_na <- getitem_mask y_pred (np_invert na_p) ;;
   let y_true := y_true_rm_na in
   let y_pred := y_pred_rm_na in
   if Nat.eqb (length y_true) 0 then Ok S754_nan
   else
     y_true_rm_zero <- getitem_mask y_true (np_ne_scalar y_true (of_Z 0)) ;;
     y_pred_rm_zero <- getitem_mask y_pred (np_ne_scalar y_true (of_Z 0)) ;;
     if Nat.eqb (length y_true_rm_zero) 0 then Ok S754_nan
     else
       diff <- np_subtract y_true_rm_zero y_pred_rm_zero ;;
       ratio <- np_divide diff y_true_rm_zero ;;
       let ape := np_mul_scalar (np_abs ratio) (of_Z 100) in
       let median_ape := np_median ape in
       Ok median_ape)%result.


(** *** The function on aligned inputs *)

(** Membership of an observation pair in the filtered sample set. *)
Definition in_sample (xy : spec_float * spec_float) : bool :=
  negb (isnan (fst xy)) && negb (isnan (snd xy)) && fne (fst xy) (of_Z 0).

(** The binary64 value of [abs((actual - predicted) / actual) * 100]. *)
Definition ape (xy : spec_float * spec_float) : spec_float :=
  fmul (fabs (fdiv (fsub (fst xy) (snd xy)) (fst xy))) (of_Z 100).

(** The binary64 percentage errors of the pairs that survive both filters,
    in input order. *)
Definition surviving_errors (y_true y_pred : list spec_float)
  : list spec_float :=
  map ape (filter in_sample (combine y_true y_pred)).

Lemma in_sample_split_b64 (c : list (spec_float * spec_float)) :
  filter (fun xy => fne (fst xy) (of_Z 0))
         (filter (fun xy => negb (isnan (fst xy) || isnan (snd xy))) c)
  = filter in_sample c.
Proof.
  rewrite filter_twice. apply filter_ext. intros [x y]; unfold in_sample.
  cbn [fst snd]. now rewrite negb_orb.
Qed.

Lemma calc_median_ape_pairs_b64 (c : list (spec_float * spec_float)) :
  calc_median_ape (map fst c) (map snd c)
  = Ok (match map ape (filter in_sample c) with
        | [] => S754_nan
        | errors => np_median errors
        end).
Proof.
  unfold calc_median_ape, astype_float, np_or, np_isnan, np_invert.
  rewrite broadcast2_aligned by now rewrite !length_map.
  rewrite !map_map, zip_with_map. cbn [bind]. rewrite map_map.
  rewrite !getitem_mask_map. cbn [bind].
  rewrite <- in_sample_split_b64.
  set (c1 := filter (fun xy => negb (isnan (fst xy) || isnan (snd xy))) c).
  rewrite length_map.
  destruct c1 as [|xy1 c1'] eqn:E1; [reflexivity|].
  cbn [length Nat.eqb]. rewrite <- E1. clear E1 xy1 c1'.
  unfold np_ne_scalar. rewrite map_map, !getitem_mask_map. cbn [bind].
  set (c2 := filter (fun xy => fne (fst xy) (of_Z 0)) c1).
  rewrite length_map.
  destruct c2 as [|xy2 c2'] eqn:E2; [reflexivity|].
  cbn [length Nat.eqb]. rewrite <- E2. clear E2 xy2 c2'.
  unfold np_subtract, np_divide.
  rewrite broadcast2_aligned by now rewrite !length_map.
  rewrite zip_with_map. cbn [bind].
  rewrite broadcast2_aligned by now rewrite !length_map.
  rewrite zip_with_map. cbn [bind].
  unfold np_mul_scalar, np_abs. rewrite !map_map.
  destruct c2 as [|xy2 c2']; [|reflexivity].
  reflexivity.
Qed.

Lemma calc_median_ape_aligned_b64 (y_true y_pred : list spec_float) :
  length y_true = length y_pred ->
  calc_median_ape y_true y_pred
  = Ok (match surviving_errors y_true y_pred with
        | [] => S754_nan
        | errors => np_median errors
        end).
Proof.
  intros H.
  rewrite <- (combine_fst y_true y_pred H) at 1.
  rewrite <- (combine_snd y_true y_pred H) at 2.
  apply calc_median_ape_pairs_b64.
Qed.

(** *** Sorting *)

Lemma insert_permutation_b64 (x : spec_float) (s : list spec_float) :
  Permutation (insert x s) (x :: s).
Proof.
  induction s as [|y s IH]; simpl; [reflexivity|].
  destruct (fle x y); [reflexivity|].
  rewrite IH. apply perm_swap.
Qed.

Lemma np_sort_permutation_b64 (a : list spec_float) : Permutation (np_sort a) a.
Proof.
  induction a as [|x a IH]; simpl; [reflexivity|].
  rewrite insert_permutation_b64. now constructor.
Qed.

Lemma np_sort_length_b64 (a : list spec_float) : length (np_sort a) = length a.
Proof. apply Permutation_length, np_sort_permutation_b64. Qed.

Lemma np_sort_Forall (P : spec_float -> Prop) (a : list spec_float) :
  Forall P a -> Forall P (np_sort a).
Proof.
  apply Permutation_Forall, Permutation_sym, np_sort_permutation_b64.
Qed.

(** *** Signs *)

(** NaN, or a value whose sign bit is clear. *)
Definition nonneg_or_nan (x : spec_float) : bool :=
  match x with
  | S754_nan => true
  | S754_zero s | S754_infinity s | S754_finite s _ _ => negb s
  end.

Lemma binary_round_aux_nonneg (m e : Z) (l : location) :
  nonneg_or_nan (binary_round_aux prec emax false m e l) = true.
Proof.
  unfold binary_round_aux.
  destruct (shr_fexp prec emax m e l) as [mrs' e'].
  destruct (shr_fexp prec emax _ e' loc_Exact) as [mrs'' e''].
  destruct (shr_m mrs''); try reflexivity.
  now destruct (e'' <=? emax - prec).
Qed.

Lemma binary_round_nonneg (m : positive) (e : Z) :
  nonneg_or_nan (binary_round prec emax false m e) = true.
Proof.
  unfold binary_round. destruct (shl_align m e _) as [mz ez].
  apply binary_round_aux_nonneg.
Qed.

Lemma of_Z_nonneg (z : Z) : 0 <= z -> nonneg_or_nan (of_Z z) = true.
Proof.
  intros Hz. unfold of_Z. destruct z as [|p|p]; [reflexivity| |lia].
  apply binary_round_nonneg.
Qed.

Lemma fabs_nonneg (x : spec_float) : nonneg_or_nan (fabs x) = true.
Proof. now destruct x. Qed.

Lemma fmul_nonneg (x y : spec_float) :
  nonneg_or_nan x = true -> nonneg_or_nan y = true ->
  nonneg_or_nan (fmul x y) = true.
Proof.
  destruct x as [[]|[]| |[] mx ex], y as [[]|[]| |[] my ey];
    try discriminate; try reflexivity.
  intros _ _. apply binary_round_aux_nonneg.
Qed.

Lemma fdiv_nonneg (x y : spec_float) :
  nonneg_or_nan x = true -> nonneg_or_nan y = true ->
  nonneg_or_nan (fdiv x y) = true.
Proof.
  destruct x as [[]|[]| |[] mx ex], y as [[]|[]| |[] my ey];
    try discriminate; try reflexivity.
  intros _ _. unfold fdiv, SFdiv.
  destruct (SFdiv_core_binary prec emax (Z.pos mx) ex (Z.pos my) ey)
    as [[mz ez] lz].
  apply binary_round_aux_nonneg.
Qed.

Lemma fadd_nonneg (x y : spec_float) :
  nonneg_or_nan x = true -> nonneg_or_nan y = true ->
  nonneg_or_nan (fadd x y) = true.
Proof.
  destruct x as [[]|[]| |[] mx ex], y as [[]|[]| |[] my ey];
    try discriminate; try reflexivity.
  intros _ _. unfold fadd, SFadd. cbn [cond_Zopp Z.add].
  apply binary_round_nonneg.
Qed.

Lemma ape_nonneg (xy : spec_float * spec_float) :
  nonneg_or_nan (ape xy) = true.
Proof.
  apply fmul_nonneg; [apply fabs_nonneg | now apply of_Z_nonneg].
Qed.

Lemma fold_fadd_nonneg (l : list spec_float) (acc : spec_float) :
  Forall (fun x => nonneg_or_nan x = true) l -> nonneg_or_nan acc = true ->
  nonneg_or_nan (fold_left fadd l acc) = true.
Proof.
  intros H. revert acc. induction H as [|x l Hx _ IH]; intros acc Ha;
    [exact Ha|].
  simpl. apply IH. now apply fadd_nonneg.
Qed.

Lemma np_mean_nonneg (l : list spec_float) :
  Forall (fun x => nonneg_or_nan x = true) l ->
  nonneg_or_nan (np_mean l) = true.
Proof.
  intros H. unfold np_mean. apply fdiv_nonneg.
  - now apply fold_fadd_nonneg.
  - apply of_Z_nonneg. lia.
Qed.

Lemma Forall_firstn {T : Type} (P : T -> Prop) (n : nat) (l : list T) :
  Forall P l -> Forall P (firstn n l).
Proof.
  intros H. revert n. induction H; intros [|n]; simpl; constructor; auto.
Qed.

Lemma Forall_skipn {T : Type} (P : T -> Prop) (n : nat) (l : list T) :
  Forall P l -> Forall P (skipn n l).
Proof.
  intros H. revert n. induction H; intros [|n]; simpl; auto.
Qed.

Lemma np_median_nonneg (l : list spec_float) :
  Forall (fun x => nonneg_or_nan x = true) l ->
  nonneg_or_nan (np_median l) = true.
Proof.
  intros H. unfold np_median.
  destruct (_ && _); [reflexivity|].
  apply np_mean_nonneg.
  destruct (Nat.odd (length l));
    now apply Forall_firstn, Forall_skipn, np_sort_Forall.
Qed.

(** *** Rounding never invents a NaN *)

Lemma iter_pos_invariant {T : Type} (P : T -> Prop) (f : T -> T) :
  (forall x, P x -> P (f x)) -> forall p x, P x -> P (iter_pos f p x).
Proof.
  intros Hf. induction p as [p IH|p IH|]; intros x Hx; simpl; auto.
Qed.

Lemma shr_1_nonneg (r : shr_record) : 0 <= shr_m r -> 0 <= shr_m (shr_1 r).
Proof.
  destruct r as [m rb sb]. simpl. destruct m as [|[p|p|]|p]; simpl; lia.
Qed.

Lemma shr_nonneg (r : shr_record) (e n : Z) :
  0 <= shr_m r -> 0 <= shr_m (fst (shr r e n)).
Proof.
  intros H. unfold shr. destruct n; simpl; auto.
  apply (iter_pos_invariant (fun r => 0 <= shr_m r)); auto using shr_1_nonneg.
Qed.

Lemma shr_record_of_loc_m (m : Z) (l : location) :
  shr_m (shr_record_of_loc m l) = m.
Proof. destruct l as [|[]]; reflexivity. Qed.

Lemma shr_fexp_nonneg (m e : Z) (l : location) :
  0 <= m -> 0 <= shr_m (fst (shr_fexp prec emax m e l)).
Proof.
  intros H. unfold shr_fexp. apply shr_nonneg.
  now rewrite shr_record_of_loc_m.
Qed.

Lemma round_nearest_even_bounds (m : Z) (l : location) :
  m <= round_nearest_even m l <= m + 1.
Proof.
  destruct l as [|[]]; simpl; try lia. destruct (Z.even m); lia.
Qed.

Lemma binary_round_aux_not_nan (s : bool) (m e : Z) (l : location) :
  0 <= m -> isnan (binary_round_aux prec emax s m e l) = false.
Proof.
  intros H. unfold binary_round_aux.
  pose proof (shr_fexp_nonneg m e l H) as H1.
  destruct (shr_fexp prec emax m e l) as [mrs' e']. cbn [fst] in H1.
  assert (H2 : 0 <= round_nearest_even (shr_m mrs') (loc_of_shr_record mrs'))
    by (pose proof (round_nearest_even_bounds (shr_m mrs')
                      (loc_of_shr_record mrs')); lia).
  pose proof (shr_fexp_nonneg _ e' loc_Exact H2) as H3.
  destruct (shr_fexp prec emax _ e' loc_Exact) as [mrs'' e'']. cbn [fst] in H3.
  destruct (shr_m mrs''); try reflexivity; [|lia].
  now destruct (e'' <=? emax - prec).
Qed.

Lemma binary_round_not_nan (s : bool) (m : positive) (e : Z) :
  isnan (binary_round prec emax s m e) = false.
Proof.
  unfold binary_round. destruct (shl_align m e _) as [mz ez].
  apply binary_round_aux_not_nan. lia.
Qed.

Lemma binary_normalize_not_nan (z e : Z) (s : bool) :
  isnan (binary_normalize prec emax z e s) = false.
Proof.
  destruct z; simpl; [reflexivity| |]; apply binary_round_not_nan.
Qed.

(** A cell holding a real number: a zero or a finite value. *)
Definition is_real (x : spec_float) : bool :=
  match x with S754_zero _ | S754_finite _ _ _ => true | _ => false end.

(** A real number or the missing-value marker. *)
Definition real_or_nan (x : spec_float) : bool :=
  match x with S754_infinity _ => false | _ => true end.

Definition reals_or_missing (a : list spec_float) : bool :=
  forallb real_or_nan a.

Lemma fsub_not_nan (x y : spec_float) :
  is_real x = true -> is_real y = true -> isnan (fsub x y) = false.
Proof.
  destruct x as [[]| | |sx mx ex], y as [[]| | |sy my ey];
    try discriminate; try reflexivity.
  intros _ _. apply binary_normalize_not_nan.
Qed.

Lemma div_core_nonneg (mx my : positive) (ex ey : Z) :
  0 <= fst (fst (SFdiv_core_binary prec emax (Z.pos mx) ex (Z.pos my) ey)).
Proof.
  unfold SFdiv_core_binary.
  set (s := _ - _ - _).
  set (m' := match s with Z.pos _ => Z.shiftl (Z.pos mx) s
                     | 0 => Z.pos mx | Z.neg _ => 0 end).
  assert (Hm : 0 <= m').
  { subst m'. destruct s; try lia. apply Z.shiftl_nonneg. lia. }
  pose proof (Z.div_pos m' (Z.pos my) Hm ltac:(lia)) as Hq.
  unfold Z.div in Hq. destruct (Z.div_eucl m' (Z.pos my)) as [q r].
  exact Hq.
Qed.

Lemma fdiv_finite_not_nan (x : spec_float) (s : bool) (m : positive) (e : Z) :
  isnan x = false -> isnan (fdiv x (S754_finite s m e)) = false.
Proof.
  destruct x as [sx|sx| |sx mx ex]; try discriminate; try reflexivity.
  intros _. unfold fdiv, SFdiv.
  pose proof (div_core_nonneg mx m ex e) as H.
  destruct (SFdiv_core_binary prec emax (Z.pos mx) ex (Z.pos m) e)
    as [[mz ez] lz].
  now apply binary_round_aux_not_nan.
Qed.

Lemma fmul_finite_not_nan (x : spec_float) (s : bool) (m : positive) (e : Z) :
  isnan x = false -> isnan (fmul x (S754_finite s m e)) = false.
Proof.
  destruct x as [sx|sx| |sx mx ex]; try discriminate; try reflexivity.
  intros _. apply binary_round_aux_not_nan. lia.
Qed.

Lemma fabs_not_nan (x : spec_float) : isnan x = false -> isnan (fabs x) = false.
Proof. now destruct x. Qed.

(** The percentage error of a non-zero real actual and a real prediction is
    a number or an infinity, never NaN. *)
Lemma ape_not_nan (s : bool) (m : positive) (e : Z) (y : spec_float) :
  is_real y = true -> isnan (ape (S754_finite s m e, y)) = false.
Proof.
  intros Hy. unfold ape. cbn [fst snd].
  change (of_Z 100) with (S754_finite false 7036874417766400 (-46)).
  apply fmul_finite_not_nan, fabs_not_nan, fdiv_finite_not_nan.
  now apply fsub_not_nan.
Qed.

Lemma in_sample_real_b64 (xy : spec_float * spec_float) :
  real_or_nan (fst xy) = true -> real_or_nan (snd xy) = true ->
  in_sample xy = true ->
  (exists s m e, fst xy = S754_finite s m e) /\ is_real (snd xy) = true.
Proof.
  destruct xy as [[sx|sx| |sx mx ex] [sy|sy| |sy my ey]];
    unfold in_sample; cbn [fst snd isnan negb andb real_or_nan];
    intros H1 H2 H; try discriminate; split; try reflexivity; eauto.
Qed.

Lemma surviving_errors_not_nan (y_true y_pred : list spec_float) :
  reals_or_missing y_true = true -> reals_or_missing y_pred = true ->
  Forall (fun x => isnan x = false) (surviving_errors y_true y_pred).
Proof.
  unfold reals_or_missing. rewrite !forallb_forall. intros Ht Hp.
  unfold surviving_errors. apply Forall_forall. intros v Hv.
  apply in_map_iff in Hv. destruct Hv as [[x y] [<- Hin]].
  apply filter_In in Hin. destruct Hin as [Hin Hs].
  destruct (in_sample_real_b64 (x, y)) as [(s & m & e & Hx) Hy]; auto.
  - apply Ht. eapply in_combine_l; eassumption.
  - apply Hp. eapply in_combine_r; eassumption.
  - cbn [fst snd] in *. subst x. now apply ape_not_nan.
Qed.

(** *** Digits *)

Lemma digits2_bounds (m : positive) :
  2 ^ (Z.pos (digits2_pos m) - 1) <= Z.pos m < 2 ^ Z.pos (digits2_pos m).
Proof.
  induction m as [m IH|m IH|]; cbn [digits2_pos].
  - rewrite Pos2Z.inj_succ.
    replace (Z.succ (Z.pos (digits2_pos m)) - 1)
      with (Z.succ (Z.pos (digits2_pos m) - 1)) by lia.
    rewrite !Z.pow_succ_r by lia. lia.
  - rewrite Pos2Z.inj_succ.
    replace (Z.succ (Z.pos (digits2_pos m)) - 1)
      with (Z.succ (Z.pos (digits2_pos m) - 1)) by lia.
    rewrite !Z.pow_succ_r by lia. lia.
  - simpl. lia.
Qed.

Lemma digits2_unique (m : positive) (k : Z) :
  2 ^ (k - 1) <= Z.pos m < 2 ^ k -> Z.pos (digits2_pos m) = k.
Proof.
  intros [H1 H2]. pose proof (digits2_bounds m) as [B1 B2].
  set (d := Z.pos (digits2_pos m)) in *.
  assert (Hd : 0 < d) by (subst d; lia).
  destruct (Z.lt_trichotomy d k) as [Hlt|[Heq|Hgt]]; [exfalso|exact Heq|exfalso].
  - assert (2 ^ d <= 2 ^ (k - 1)) by (apply Z.pow_le_mono_r; lia). lia.
  - destruct (Z.le_gt_cases 0 k) as [Hk|Hk].
    + assert (2 ^ k <= 2 ^ (d - 1)) by (apply Z.pow_le_mono_r; lia). lia.
    + rewrite (Z.pow_neg_r 2 k) in H2 by lia. lia.
Qed.

(** Exact division by a power of two that divides. *)
Lemma div_eucl_exact (q b : Z) : 0 < b -> Z.div_eucl (q * b) b = (q, 0).
Proof.
  intros Hb. pose proof (Z_div_mod (q * b) b ltac:(lia)) as H.
  destruct (Z.div_eucl (q * b) b) as [q' r']. destruct H as [H1 H2].
  assert (q' = q) by nia. subst q'. f_equal. lia.
Qed.

Definition one : spec_float := S754_finite false 4503599627370496 (-52).

Lemma div_core_one_normal (m : positive) (e : Z) :
  Z.pos (digits2_pos m) = 53 -> -1074 < e ->
  SFdiv_core_binary prec emax (Z.pos m) e (Z.pos 4503599627370496) (-52)
  = (Z.pos m~0, e - 1, loc_Exact).
Proof.
  intros Hd He. unfold SFdiv_core_binary, fexp, emin, prec, emax.
  change (Zdigits2 (Z.pos 4503599627370496)) with 53.
  change (Zdigits2 (Z.pos m)) with (Z.pos (digits2_pos m)). rewrite Hd.
  replace (Z.min _ _) with (e - 1) by lia.
  replace (e - -52 - (e - 1)) with 53 by lia.
  cbv iota beta.
  rewrite Z.shiftl_mul_pow2 by lia.
  replace (Z.pos m * 2 ^ 53) with (Z.pos m~0 * Z.pos 4503599627370496) by lia.
  rewrite div_eucl_exact by lia. reflexivity.
Qed.
Lemma div_core_one_subnormal (m : positive) :
  Z.pos (digits2_pos m) <= 53 ->
  SFdiv_core_binary prec emax (Z.pos m) (-1074) (Z.pos 4503599627370496) (-52)
  = (Z.pos m, -1074, loc_Exact).
Proof.
  intros Hd. unfold SFdiv_core_binary, fexp, emin, prec, emax.
  change (Zdigits2 (Z.pos 4503599627370496)) with 53.
  change (Zdigits2 (Z.pos m)) with (Z.pos (digits2_pos m)).
  replace (Z.min _ _) with (-1074) by lia.
  change (-1074 - -52 - -1074) with 52.
  cbv iota beta.
  rewrite Z.shiftl_mul_pow2 by lia.
  change (2 ^ 52) with (Z.pos 4503599627370496).
  rewrite div_eucl_exact by lia. reflexivity.
Qed.

(** Rounding an exact value that is already in canonical form. *)
Lemma round_canonical (s : bool) (m : positive) (e : Z) :
  bounded prec emax m e = true ->
  binary_round_aux prec emax s (Z.pos m) e loc_Exact = S754_finite s m e.
Proof.
  unfold bounded, canonical_mantissa. intros H.
  apply andb_true_iff in H. destruct H as [Hc He].
  apply Z.eqb_eq in Hc.
  unfold binary_round_aux, shr_fexp.
  change (Zdigits2 (Z.pos m)) with (Z.pos (digits2_pos m)).
  rewrite Hc, Z.sub_diag. cbn [shr shr_record_of_loc shr_m loc_of_shr_record
                              round_nearest_even].
  change (Zdigits2 (Z.pos m)) with (Z.pos (digits2_pos m)).
  rewrite Hc, Z.sub_diag. cbn [shr shr_record_of_loc shr_m].
  now rewrite He.
Qed.

(** The same value with one more binary digit and the exponent below. *)
Lemma round_doubled (s : bool) (m : positive) (e : Z) :
  bounded prec emax m e = true ->
  binary_round_aux prec emax s (Z.pos m~0) (e - 1) loc_Exact
  = S754_finite s m e.
Proof.
  unfold bounded, canonical_mantissa. intros H.
  apply andb_true_iff in H. destruct H as [Hc He].
  apply Z.eqb_eq in Hc.
  unfold binary_round_aux, shr_fexp.
  change (Zdigits2 (Z.pos m~0)) with (Z.pos (Pos.succ (digits2_pos m))).
  rewrite Pos2Z.inj_succ.
  replace (Z.succ (Z.pos (digits2_pos m)) + (e - 1))
    with (Z.pos (digits2_pos m) + e) by lia.
  rewrite Hc. replace (e - (e - 1)) with 1 by lia.
  cbn [shr shr_record_of_loc iter_pos shr_1 orb shr_m loc_of_shr_record
       round_nearest_even].
  replace (e - 1 + 1) with e by lia.
  change (Zdigits2 (Z.pos m)) with (Z.pos (digits2_pos m)).
  rewrite Hc, Z.sub_diag. cbn [shr shr_record_of_loc shr_m].
  now rewrite He.
Qed.

(** Dividing by one changes nothing. *)
Lemma fdiv_one_finite (s : bool) (m : positive) (e : Z) :
  bounded prec emax m e = true ->
  fdiv (S754_finite s m e) one = S754_finite s m e.
Proof.
  intros H. pose proof H as Hb.
  unfold bounded, canonical_mantissa, fexp, emin, prec, emax in H.
  apply andb_true_iff in H. destruct H as [Hc He].
  apply Z.eqb_eq in Hc.
  unfold fdiv, SFdiv, one.
  destruct (Z.eq_dec e (-1074)) as [E|E].
  - subst e. rewrite div_core_one_subnormal by lia.
    rewrite xorb_false_r. now apply round_canonical.
  - rewrite div_core_one_normal by lia.
    rewrite xorb_false_r. now apply round_doubled.
Qed.

Lemma fdiv_one (x : spec_float) :
  valid_binary prec emax x = true -> fdiv x one = x.
Proof.
  destruct x as [[]|[]| |s m e]; try reflexivity.
  apply fdiv_one_finite.
Qed.
(** *** Rounding gives canonical values *)

Lemma shr_1_div2 (r : shr_record) :
  0 <= shr_m r -> shr_m (shr_1 r) = shr_m r / 2.
Proof.
  intros H. rewrite <- Z.div2_div.
  destruct r as [m rb sb]. cbn [shr_m] in *.
  destruct m as [|[p|p|]|p]; try reflexivity. lia.
Qed.

Lemma iter_shr_1 (p : positive) (r : shr_record) :
  0 <= shr_m r -> shr_m (iter_pos shr_1 p r) = shr_m r / 2 ^ Z.pos p.
Proof.
  revert r. induction p as [p IH|p IH|]; intros r Hr; cbn [iter_pos].
  - pose proof (shr_1_nonneg r Hr) as H1.
    assert (H2 : 0 <= shr_m (iter_pos shr_1 p (shr_1 r)))
      by (apply (iter_pos_invariant (fun r => 0 <= shr_m r));
          auto using shr_1_nonneg).
    rewrite IH by exact H2. rewrite IH by exact H1.
    rewrite shr_1_div2 by exact Hr.
    rewrite !Z.div_div by (try apply Z.pow_pos_nonneg; lia).
    f_equal.
    assert (E : 2 ^ Z.pos p~1 = 2 * 2 ^ Z.pos p * 2 ^ Z.pos p).
    { replace (Z.pos p~1) with (1 + Z.pos p + Z.pos p) by lia.
      rewrite !Z.pow_add_r by lia. reflexivity. }
    rewrite E. ring.
  - assert (H2 : 0 <= shr_m (iter_pos shr_1 p r))
      by (apply (iter_pos_invariant (fun r => 0 <= shr_m r));
          auto using shr_1_nonneg).
    rewrite IH by exact H2. rewrite IH by exact Hr.
    rewrite Z.div_div by (try apply Z.pow_pos_nonneg; lia).
    f_equal.
    assert (E : 2 ^ Z.pos p~0 = 2 ^ Z.pos p * 2 ^ Z.pos p).
    { replace (Z.pos p~0) with (Z.pos p + Z.pos p) by lia.
      now rewrite Z.pow_add_r by lia. }
    rewrite E. ring.
  - now apply shr_1_div2.
Qed.

Lemma shr_spec (r : shr_record) (e n : Z) :
  0 <= shr_m r ->
  shr_m (fst (shr r e n)) = shr_m r / 2 ^ Z.max 0 n /\
  snd (shr r e n) = e + Z.max 0 n.
Proof.
  intros Hr. unfold shr. destruct n as [|p|p]; cbn [fst snd].
  - change (Z.max 0 0) with 0. rewrite Z.div_1_r. split; [reflexivity | lia].
  - replace (Z.max 0 (Z.pos p)) with (Z.pos p) by lia.
    split; [now apply iter_shr_1 | reflexivity].
  - replace (Z.max 0 (Z.neg p)) with 0 by lia.
    rewrite Z.div_1_r. split; [reflexivity | lia].
Qed.

(** The digits of a quotient by a power of two. *)
Lemma digits2_quotient (m q : positive) (n : Z) :
  0 <= n -> Z.pos m / 2 ^ n = Z.pos q ->
  Z.pos (digits2_pos q) = Z.pos (digits2_pos m) - n.
Proof.
  intros Hn Hq. apply digits2_unique.
  pose proof (digits2_bounds m) as [B1 B2].
  set (d := Z.pos (digits2_pos m)) in *.
  assert (Hp : 0 < 2 ^ n) by (apply Z.pow_pos_nonneg; lia).
  assert (Hnd : n < d).
  { destruct (Z.lt_ge_cases n d) as [H|H]; [exact H|exfalso].
    assert (2 ^ d <= 2 ^ n) by (apply Z.pow_le_mono_r; lia).
    rewrite Z.div_small in Hq by lia. discriminate. }
  rewrite <- Hq. split.
  - apply Z.div_le_lower_bound; [exact Hp|].
    rewrite <- Z.pow_add_r by lia.
    now replace (n + (d - n - 1)) with (d - 1) by lia.
  - apply Z.div_lt_upper_bound; [exact Hp|].
    rewrite <- Z.pow_add_r by lia.
    now replace (n + (d - n)) with d by lia.
Qed.

Lemma digits2_lower (m : positive) (k : Z) :
  2 ^ k <= Z.pos m -> k < Z.pos (digits2_pos m).
Proof.
  intros H. pose proof (digits2_bounds m) as [_ B2].
  destruct (Z.lt_ge_cases k (Z.pos (digits2_pos m))) as [Hk|Hk]; [exact Hk|].
  assert (2 ^ Z.pos (digits2_pos m) <= 2 ^ k)
    by (apply Z.pow_le_mono_r; lia).
  lia.
Qed.

(** Rounding a mantissa of at least 53 digits gives a canonical value. *)
Lemma binary_round_aux_valid (s : bool) (m : positive) (e : Z) (l : location) :
  53 <= Z.pos (digits2_pos m) ->
  valid_binary prec emax (binary_round_aux prec emax s (Z.pos m) e l) = true.
Proof.
  intros Hd. unfold binary_round_aux, shr_fexp.
  change (Zdigits2 (Z.pos m)) with (Z.pos (digits2_pos m)).
  set (d := Z.pos (digits2_pos m)) in *.
  set (n := fexp prec emax (d + e) - e).
  assert (Hn : 0 <= n) by (subst n; unfold fexp, emin, prec, emax; lia).
  destruct (shr_spec (shr_record_of_loc (Z.pos m) l) e n) as [S1 S2];
    [rewrite shr_record_of_loc_m; lia|].
  rewrite shr_record_of_loc_m in S1.
  destruct (shr (shr_record_of_loc (Z.pos m) l) e n) as [mrs' e'].
  cbn [fst snd] in S1, S2.
  replace (Z.max 0 n) with n in * by lia.
  set (m2 := round_nearest_even (shr_m mrs') (loc_of_shr_record mrs')).
  pose proof (round_nearest_even_bounds (shr_m mrs') (loc_of_shr_record mrs'))
    as Hm2. fold m2 in Hm2.
  assert (Hm1 : 0 <= shr_m mrs')
    by (rewrite S1; apply Z.div_pos; [lia | apply Z.pow_pos_nonneg; lia]).
  set (n2 := fexp prec emax (Zdigits2 m2 + e') - e').
  destruct (shr_spec (shr_record_of_loc m2 loc_Exact) e' n2) as [T1 T2];
    [rewrite shr_record_of_loc_m; lia|].
  rewrite shr_record_of_loc_m in T1.
  destruct (shr (shr_record_of_loc m2 loc_Exact) e' n2) as [mrs'' e''].
  cbn [fst snd] in T1, T2.
  destruct (shr_m mrs'') as [|m3|m3] eqn:E3; try reflexivity.
  destruct (e'' <=? emax - prec) eqn:Ee; [|reflexivity].
  cbn [valid_binary]. unfold bounded. rewrite Ee, andb_true_r.
  unfold canonical_mantissa. apply Z.eqb_eq.
  (* the rounded mantissa is positive *)
  destruct m2 as [|p2|p2] eqn:Ep2.
  - rewrite Z.div_0_l in T1 by (apply Z.pow_nonzero; lia). discriminate.
  - assert (Hn2 : 0 <= n2).
    { subst n2. cbn [Zdigits2]. unfold fexp, emin, prec, emax.
      destruct (Z.le_gt_cases (d + e - 53) (-1074)) as [Hs|Hs].
      - subst n. unfold fexp, emin, prec, emax in S2. lia.
      - assert (He' : e' = d + e - 53)
          by (subst n; unfold fexp, emin, prec, emax in S2; lia).
        assert (Hnn : n = d - 53)
          by (subst n; unfold fexp, emin, prec, emax; lia).
        assert (H52 : 2 ^ 52 <= shr_m mrs').
        { rewrite S1, Hnn. apply Z.div_le_lower_bound;
            [apply Z.pow_pos_nonneg; lia|].
          rewrite <- Z.pow_add_r by lia.
          replace (d - 53 + 52) with (d - 1) by lia.
          apply (digits2_bounds m). }
        assert (52 < Z.pos (digits2_pos p2)) by (apply digits2_lower; lia).
        lia. }
    replace (Z.max 0 n2) with n2 in * by lia.
    rewrite (digits2_quotient p2 m3 n2 Hn2 (eq_sym T1)).
    rewrite T2. subst n2. cbn [Zdigits2].
    replace (Z.pos (digits2_pos p2) -
             (fexp prec emax (Z.pos (digits2_pos p2) + e') - e') +
             (e' + (fexp prec emax (Z.pos (digits2_pos p2) + e') - e')))
      with (Z.pos (digits2_pos p2) + e') by lia.
    lia.
  - lia.
Qed.

(** *** The percentage errors are canonical *)

Definition hundred : spec_float := S754_finite false 7036874417766400 (-46).

Lemma of_Z_100 : of_Z 100 = hundred.
Proof. reflexivity. Qed.

Lemma fmul_hundred_valid (x : spec_float) :
  valid_binary prec emax (fmul x hundred) = true.
Proof.
  destruct x as [sx|sx| |sx mx ex]; try reflexivity.
  unfold fmul, SFmul, hundred. apply binary_round_aux_valid.
  assert (H : 52 < Z.pos (digits2_pos (mx * 7036874417766400))).
  { apply digits2_lower. rewrite Pos2Z.inj_mul.
    change (2 ^ 52) with 4503599627370496. nia. }
  lia.
Qed.

Lemma ape_valid (xy : spec_float * spec_float) :
  valid_binary prec emax (ape xy) = true.
Proof. unfold ape. rewrite of_Z_100. apply fmul_hundred_valid. Qed.

(** *** The mean of one or two entries *)

Lemma fadd_zero_l (x : spec_float) :
  nonneg_or_nan x = true -> fadd (S754_zero false) x = x.
Proof. destruct x as [[]|[]| |[] m e]; try discriminate; reflexivity. Qed.

Lemma np_mean_one_b64 (x : spec_float) :
  nonneg_or_nan x = true -> valid_binary prec emax x = true ->
  np_mean [x] = x.
Proof.
  intros Hn Hv. unfold np_mean. cbn [fold_left length].
  rewrite (fadd_zero_l x Hn).
  change (of_Z (Z.of_nat 1)) with one. now apply fdiv_one.
Qed.

Lemma np_mean_two_b64 (x y : spec_float) :
  nonneg_or_nan x = true ->
  np_mean [x; y] = fdiv (fadd x y) (of_Z 2).
Proof.
  intros Hn. unfold np_mean. cbn [fold_left length].
  now rewrite (fadd_zero_l x Hn).
Qed.

(** *** The median of an array without NaN *)

Lemma last_In {T : Type} (l : list T) (d : T) : l <> [] -> In (last l d) l.
Proof.
  induction l as [|x l IH]; [congruence|]. intros _.
  destruct l as [|y l]; [now left|].
  right. apply IH. discriminate.
Qed.

Lemma np_median_no_nan_check (l : list spec_float) :
  Forall (fun x => isnan x = false) l ->
  isnan (last (np_sort l) (S754_zero false)) = false.
Proof.
  intros H. destruct l as [|x l]; [reflexivity|].
  assert (Hs : np_sort (x :: l) <> []).
  { intros E. pose proof (np_sort_length_b64 (x :: l)) as L.
    rewrite E in L. discriminate. }
  pose proof (last_In _ (S754_zero false) Hs) as Hin.
  pose proof (np_sort_Forall _ _ H) as Hf.
  rewrite Forall_forall in Hf. now apply Hf.
Qed.

(** An odd number of entries: the middle entry of the sorted array. *)
Lemma np_median_odd (l : list spec_float) (d : spec_float) :
  Nat.odd (length l) = true ->
  Forall (fun x => isnan x = false) l ->
  Forall (fun x => nonneg_or_nan x = true) l ->
  Forall (fun x => valid_binary prec emax x = true) l ->
  np_median l = nth (Nat.div (length l) 2) (np_sort l) d.
Proof.
  intros Hodd Hn Hs Hv. unfold np_median.
  rewrite (np_median_no_nan_check l Hn), andb_false_r, Hodd.
  assert (Hk : (Nat.div (length l) 2 < length (np_sort l))%nat)
    by (rewrite np_sort_length_b64; now apply odd_half).
  rewrite (slice_one d) by exact Hk.
  assert (Hin : In (nth (Nat.div (length l) 2) (np_sort l) d) (np_sort l))
    by now apply nth_In.
  apply np_mean_one_b64.
  - pose proof (np_sort_Forall _ _ Hs) as Hf.
    rewrite Forall_forall in Hf. now apply Hf.
  - pose proof (np_sort_Forall _ _ Hv) as Hf.
    rewrite Forall_forall in Hf. now apply Hf.
Qed.

(** An even number of entries: the binary64 mean of the two middle entries
    of the sorted array. *)
Lemma np_median_even (l : list spec_float) (d : spec_float) :
  Nat.odd (length l) = false -> l <> [] ->
  Forall (fun x => isnan x = false) l ->
  Forall (fun x => nonneg_or_nan x = true) l ->
  np_median l
  = fdiv (fadd (nth (Nat.div (length l) 2 - 1) (np_sort l) d)
               (nth (Nat.div (length l) 2) (np_sort l) d))
         (of_Z 2).
Proof.
  intros Hodd Hl Hn Hs. unfold np_median.
  rewrite (np_median_no_nan_check l Hn), andb_false_r, Hodd.
  assert (Hlen : length l <> 0%nat) by (destruct l; [congruence | discriminate]).
  destruct (even_half _ Hodd Hlen) as [H1 H2].
  rewrite (slice_two d) by (rewrite np_sort_length_b64; lia).
  replace (S (Nat.div (length l) 2 - 1)) with (Nat.div (length l) 2) by lia.
  apply np_mean_two_b64.
  pose proof (np_sort_Forall _ _ Hs) as Hf.
  rewrite Forall_forall in Hf. apply Hf, nth_In.
  rewrite np_sort_length_b64. lia.
Qed.

(** *** The sorted array is sorted *)

Lemma SFcompare_antisym (x y : spec_float) :
  SFcompare y x = option_map CompOpp (SFcompare x y).
Proof.
  destruct x as [sx|sx| |sx mx ex], y as [sy|sy| |sy my ey];
    try destruct sx; try destruct sy; try reflexivity; cbn [SFcompare option_map].
  - rewrite (Z.compare_antisym ex ey).
    destruct (ex ?= ey); cbn [CompOpp]; try reflexivity;
      rewrite ?CompOpp_involutive, ?Pos.compare_cont_antisym; reflexivity.
  - rewrite (Z.compare_antisym ex ey).
    destruct (ex ?= ey); cbn [CompOpp]; try reflexivity;
      rewrite ?CompOpp_involutive, ?Pos.compare_cont_antisym; reflexivity.
Qed.

Lemma fle_total_b64 (x y : spec_float) : fle x y = true \/ fle y x = true.
Proof.
  unfold fle, SFleb. rewrite (SFcompare_antisym x y).
  destruct x as [sx|sx| |sx mx ex], y as [sy|sy| |sy my ey]; auto;
    destruct (SFcompare _ _) as [[]|] eqn:E; cbn [option_map CompOpp]; auto;
    discriminate.
Qed.

Lemma insert_sorted_b64 (x : spec_float) (s : list spec_float) :
  Sorted (fun u v => fle u v = true) s ->
  Sorted (fun u v => fle u v = true) (insert x s).
Proof.
  induction 1 as [|y s Hs IH Hd]; simpl; [repeat constructor|].
  destruct (fle x y) eqn:Hxy.
  - repeat constructor; assumption.
  - assert (Hyx : fle y x = true)
      by (destruct (fle_total_b64 x y); congruence).
    constructor; [exact IH|].
    destruct s as [|z s]; simpl; [now constructor|].
    destruct (fle x z); constructor; [exact Hyx|].
    now inversion Hd.
Qed.

(** [np_sort] returns its input rearranged in ascending order, NaN last. *)
Lemma np_sort_sorted_b64 (a : list spec_float) :
  Sorted (fun u v => fle u v = true) (np_sort a).
Proof.
  induction a as [|x a IH]; simpl; [constructor | now apply insert_sorted_b64].
Qed.
(** *** Results on binary64 inputs *)

(** The real number a cell holds, if it holds one. *)
Definition to_Q (x : spec_float) : option Q :=
  match x with
  | S754_zero _ => Some 0%Q
  | S754_finite s m e =>
      Some (inject_Z (cond_Zopp s (Z.pos m)) * Qpower (inject_Z 2) e)%Q
  | _ => None
  end.

(** A finite value other than zero. *)
Definition is_finite_nonzero (x : spec_float) : bool :=
  match x with S754_finite _ _ _ => true | _ => false end.

Lemma nonneg_cases (r : spec_float) :
  nonneg_or_nan r = true ->
  r = S754_nan \/ r = S754_infinity false \/ r = S754_zero false \/
  exists m e, r = S754_finite false m e.
Proof.
  destruct r as [[]|[]| |[] m e]; try discriminate; eauto 6.
Qed.

Lemma surviving_errors_nonneg (y_true y_pred : list spec_float) :
  Forall (fun x => nonneg_or_nan x = true) (surviving_errors y_true y_pred).
Proof.
  unfold surviving_errors. apply Forall_forall. intros v Hv.
  apply in_map_iff in Hv. destruct Hv as [xy [<- _]]. apply ape_nonneg.
Qed.

Lemma surviving_errors_valid (y_true y_pred : list spec_float) :
  Forall (fun x => valid_binary prec emax x = true)
         (surviving_errors y_true y_pred).
Proof.
  unfold surviving_errors. apply Forall_forall. intros v Hv.
  apply in_map_iff in Hv. destruct Hv as [xy [<- _]]. apply ape_valid.
Qed.

(** Without missing values and zero actuals every pair survives. *)
Lemma surviving_errors_all (actual predicted : list spec_float) :
  forallb is_finite_nonzero actual = true ->
  forallb is_real predicted = true ->
  surviving_errors actual predicted = map ape (combine actual predicted).
Proof.
  unfold surviving_errors. revert predicted.
  induction actual as [|a actual IH]; intros [|p predicted] Ha Hp;
    try reflexivity.
  cbn [forallb] in Ha, Hp. apply andb_true_iff in Ha, Hp.
  destruct Ha as [Ha Ha'], Hp as [Hp Hp'].
  cbn [combine filter].
  assert (E : in_sample (a, p) = true).
  { destruct a as [| | |s m e]; try discriminate.
    destruct p as [sp| | |sp mp ep]; try discriminate; now destruct s. }
  rewrite E. cbn [map]. now rewrite IH.
Qed.

Lemma reals_of_finite (a : list spec_float) :
  forallb is_finite_nonzero a = true -> reals_or_missing a = true.
Proof.
  unfold reals_or_missing. induction a as [|x a IH]; [reflexivity|].
  cbn [forallb]. intros H. apply andb_true_iff in H. destruct H as [Hx Ha].
  rewrite (IH Ha), andb_true_r. now destruct x.
Qed.

Lemma reals_of_real (a : list spec_float) :
  forallb is_real a = true -> reals_or_missing a = true.
Proof.
  unfold reals_or_missing. induction a as [|x a IH]; [reflexivity|].
  cbn [forallb]. intros H. apply andb_true_iff in H. destruct H as [Hx Ha].
  rewrite (IH Ha), andb_true_r. now destruct x.
Qed.

(** The result on real inputs, by the parity of the number of survivors. *)
Lemma calc_median_ape_by_parity (y_true y_pred : list spec_float)
      (d : spec_float) :
  length y_true = length y_pred ->
  reals_or_missing y_true = true -> reals_or_missing y_pred = true ->
  let errors := surviving_errors y_true y_pred in
  let n := length errors in
  calc_median_ape y_true y_pred
  = Ok (if Nat.eqb n 0 then S754_nan
        else if Nat.odd n then nth (Nat.div n 2) (np_sort errors) d
        else fdiv (fadd (nth (Nat.div n 2 - 1) (np_sort errors) d)
                        (nth (Nat.div n 2) (np_sort errors) d))
                  (of_Z 2)).
Proof.
  intros Hlen Ht Hp errors n.
  rewrite (calc_median_ape_aligned_b64 _ _ Hlen). f_equal.
  pose proof (surviving_errors_not_nan _ _ Ht Hp) as Hn.
  pose proof (surviving_errors_nonneg y_true y_pred) as Hs.
  pose proof (surviving_errors_valid y_true y_pred) as Hv.
  subst n errors.
  destruct (surviving_errors y_true y_pred) as [|e0 es] eqn:E; [reflexivity|].
  cbn [length Nat.eqb]. rewrite <- E in *.
  replace (S (length es)) with (length (surviving_errors y_true y_pred))
    by now rewrite E.
  destruct (Nat.odd (length (surviving_errors y_true y_pred))) eqn:Hodd.
  - now apply np_median_odd.
  - apply np_median_even; auto. rewrite E. discriminate.
Qed.
(** C9.  The claim as stated fails: with actual 1 and prediction 2^1023 the
    percentage error overflows, and the function returns +infinity, which is
    neither NaN nor a real number. *)
Lemma calc_median_ape_nonnegative_counterexample :
  let y_true := [of_Z 1] in
  let y_pred := [of_Z (2 ^ 1023)] in
  reals_or_missing y_true = true /\ reals_or_missing y_pred = true /\
  calc_median_ape y_true y_pred = Ok (S754_infinity false) /\
  ~ (exists r, calc_median_ape y_true y_pred = Ok r /\
               (isnan r = true \/ is_real r = true)).
Proof.
  cbv zeta.
  assert (E : calc_median_ape [of_Z 1] [of_Z (2 ^ 1023)]
              = Ok (S754_infinity false)) by (vm_compute; reflexivity).
  repeat (split; [reflexivity || exact E|]).
  intros (r & Hr & H). rewrite E in Hr. injection Hr as <-.
  destruct H; discriminate.
Qed.

(** C9, amended.  On equal-length sequences the result is never negative:
    it is NaN, +infinity, zero or a positive number. *)
Theorem calc_median_ape_never_negative (y_true y_pred : list spec_float) :
  length y_true = length y_pred ->
  exists r : spec_float,
    calc_median_ape y_true y_pred = Ok r /\
    (r = S754_nan \/ r = S754_infinity false \/ r = S754_zero false \/
     exists m e, r = S754_finite false m e).
Proof.
  intros Hlen. rewrite (calc_median_ape_aligned_b64 _ _ Hlen).
  eexists. split; [reflexivity|]. apply nonneg_cases.
  destruct (surviving_errors y_true y_pred) as [|e0 es] eqn:E; [reflexivity|].
  apply np_median_nonneg. rewrite <- E. apply surviving_errors_nonneg.
Qed.

Lemma calc_median_ape_never_negative_witness :
  length [of_Z (-3); S754_nan; of_Z 5] = length [of_Z 6; of_Z 1; of_Z (-5)] /\
  exists r : spec_float,
    calc_median_ape [of_Z (-3); S754_nan; of_Z 5] [of_Z 6; of_Z 1; of_Z (-5)]
    = Ok r /\
    (r = S754_nan \/ r = S754_infinity false \/ r = S754_zero false \/
     exists m e, r = S754_finite false m e).
Proof.
  split; [reflexivity|].
  apply (calc_median_ape_never_negative
           [of_Z (-3); S754_nan; of_Z 5] [of_Z 6; of_Z 1; of_Z (-5)]).
  reflexivity.
Defined.

(** C5.  The claim as stated fails: with actuals 1, 1 and predictions 2^1017,
    2^1017 both percentage errors are the number 100 * 2^1017, whose
    arithmetic mean is that same number, but their binary64 sum overflows
    and the function returns +infinity. *)
Lemma calc_median_ape_even_count_counterexample :
  let y_true := [of_Z 1; of_Z 1] in
  let y_pred := [of_Z (2 ^ 1017); of_Z (2 ^ 1017)] in
  let v := S754_finite false 7036874417766400 971 in
  np_sort (surviving_errors y_true y_pred) = [v; v] /\
  is_real v = true /\
  calc_median_ape y_true y_pred = Ok (S754_infinity false) /\
  ~ (exists r m, calc_median_ape y_true y_pred = Ok r /\ to_Q r = Some m).
Proof.
  cbv zeta.
  assert (E : calc_median_ape [of_Z 1; of_Z 1]
                              [of_Z (2 ^ 1017); of_Z (2 ^ 1017)]
              = Ok (S754_infinity false)) by (vm_compute; reflexivity).
  split; [vm_compute; reflexivity|]. split; [reflexivity|].
  split; [exact E|].
  intros (r & m & Hr & Hq). rewrite E in Hr. injection Hr as <-.
  discriminate.
Qed.

(** C5, amended.  On equal-length sequences of real numbers, some possibly
    missing, when the number of pairs surviving both filters is even and not
    zero the function returns the binary64 mean of the two middle entries of
    the sorted binary64 percentage errors: their sum, rounded and +infinity
    on overflow, divided by two.  When no pair survives it returns NaN.  The
    sorted errors are the surviving errors rearranged in ascending order. *)
Theorem calc_median_ape_even_count (y_true y_pred : list spec_float) :
  length y_true = length y_pred ->
  reals_or_missing y_true = true -> reals_or_missing y_pred = true ->
  let errors := surviving_errors y_true y_pred in
  let n := length errors in
  Nat.even n = true ->
  (n <> 0%nat ->
   calc_median_ape y_true y_pred
   = Ok (fdiv (fadd (nth (Nat.div n 2 - 1) (np_sort errors) S754_nan)
                    (nth (Nat.div n 2) (np_sort errors) S754_nan))
              (of_Z 2))) /\
  (n = 0%nat -> calc_median_ape y_true y_pred = Ok S754_nan) /\
  Sorted (fun u v => fle u v = true) (np_sort errors) /\
  Permutation (np_sort errors) errors.
Proof.
  intros Hlen Ht Hp errors n Heven.
  rewrite (calc_median_ape_by_parity _ _ S754_nan Hlen Ht Hp).
  fold errors. fold n.
  assert (Hodd : Nat.odd n = false)
    by (rewrite <- Nat.negb_even, Heven; reflexivity).
  rewrite Hodd. split; [|split; [|split]].
  - intros Hn. apply Nat.eqb_neq in Hn. now rewrite Hn.
  - intros Hn. now rewrite Hn.
  - apply np_sort_sorted_b64.
  - apply np_sort_permutation_b64.
Qed.

Lemma calc_median_ape_even_count_witness :
  let y_true := [of_Z 3; S754_nan; of_Z 3; of_Z 0] in
  let y_pred := [of_Z 2; of_Z 7; of_Z 1; of_Z 4] in
  calc_median_ape y_true y_pred
  = Ok (S754_finite false 7036874417766399 (-47)).
Proof.
  cbv zeta.
  refine (eq_trans
            (proj1 (calc_median_ape_even_count
                      [of_Z 3; S754_nan; of_Z 3; of_Z 0]
                      [of_Z 2; of_Z 7; of_Z 1; of_Z 4]
                      eq_refl eq_refl eq_refl eq_refl) _) _).
  - discriminate.
  - vm_compute. reflexivity.
Defined.

(** C1.  The claim as stated fails.  With actuals 3, 3 and predictions 2, 1
    the per-position values are 100/3 and 200/3, whose statistical median is
    50, but the function returns the binary64 number 49.99999999999999.
    With actuals 2, 2 and predictions 2^1018, 2^1018 both binary64
    per-position values are the number 100 * 2^1017, which is their median,
    but their sum overflows and the function returns +infinity. *)
Lemma calc_median_ape_statistical_median_counterexample :
  let actual := [of_Z 3; of_Z 3] in
  let predicted := [of_Z 2; of_Z 1] in
  let actual' := [of_Z 2; of_Z 2] in
  let predicted' := [of_Z (2 ^ 1018); of_Z (2 ^ 1018)] in
  let v := S754_finite false 7036874417766400 971 in
  calc_median_ape actual predicted
  = Ok (S754_finite false 7036874417766399 (-47)) /\
  statistical_median (map pct_error [(3, 2); (3, 1)]%Q) 50%Q /\
  ~ (exists r m,
        calc_median_ape actual predicted = Ok r /\ to_Q r = Some m /\
        statistical_median (map pct_error [(3, 2); (3, 1)]%Q) m) /\
  map ape (combine actual' predicted') = [v; v] /\
  calc_median_ape actual' predicted' = Ok (S754_infinity false) /\
  ~ (exists r m, calc_median_ape actual' predicted' = Ok r /\ to_Q r = Some m).
Proof.
  cbv zeta.
  assert (E : calc_median_ape [of_Z 3; of_Z 3] [of_Z 2; of_Z 1]
              = Ok (S754_finite false 7036874417766399 (-47)))
    by (vm_compute; reflexivity).
  assert (E' : calc_median_ape [of_Z 2; of_Z 2]
                               [of_Z (2 ^ 1018); of_Z (2 ^ 1018)]
               = Ok (S754_infinity false)) by (vm_compute; reflexivity).
  assert (H50 : statistical_median (map pct_error [(3, 2); (3, 1)]%Q) 50%Q).
  { exists (100 # 3)%Q, (200 # 3)%Q. split; [|split].
    - split; vm_compute; lia.
    - split; vm_compute; lia.
    - vm_compute. reflexivity. }
  split; [exact E|]. split; [exact H50|]. split; [|split; [|split]].
  - intros (r & m & Hr & Hq & Hm). rewrite E in Hr. injection Hr as <-.
    vm_compute in Hq. injection Hq as <-.
    pose proof (statistical_median_unique _ _ _ Hm H50) as Habs.
    vm_compute in Habs. discriminate.
  - vm_compute. reflexivity.
  - exact E'.
  - intros (r & m & Hr & Hq). rewrite E' in Hr. injection Hr as <-.
    discriminate.
Qed.

(** C1, amended.  On equal-length sequences of binary64 numbers with nothing
    missing or infinite and no zero actual, the function returns the median
    of the binary64 per-position values [abs((actual - predicted) / actual)
    * 100]: exactly the middle entry of their sorted list when their count
    is odd, and the binary64 mean of the two middle entries (their sum,
    rounded and +infinity on overflow, divided by two) when it is even; on
    empty sequences it returns NaN.  The sorted list is the list of
    per-position values rearranged in ascending order. *)
Theorem calc_median_ape_float_median (actual predicted : list spec_float) :
  length actual = length predicted ->
  forallb is_finite_nonzero actual = true ->
  forallb is_real predicted = true ->
  let errors := map ape (combine actual predicted) in
  let n := length actual in
  (Nat.odd n = true ->
   calc_median_ape actual predicted
   = Ok (nth (Nat.div n 2) (np_sort errors) S754_nan)) /\
  (Nat.even n = true -> n <> 0%nat ->
   calc_median_ape actual predicted
   = Ok (fdiv (fadd (nth (Nat.div n 2 - 1) (np_sort errors) S754_nan)
                    (nth (Nat.div n 2) (np_sort errors) S754_nan))
              (of_Z 2))) /\
  (n = 0%nat -> calc_median_ape actual predicted = Ok S754_nan) /\
  Sorted (fun u v => fle u v = true) (np_sort errors) /\
  Permutation (np_sort errors) errors.
Proof.
  intros Hlen Ha Hp errors n.
  rewrite (calc_median_ape_by_parity _ _ S754_nan Hlen
             (reals_of_finite _ Ha) (reals_of_real _ Hp)).
  rewrite (surviving_errors_all _ _ Ha Hp). fold errors.
  assert (Hn : length errors = n).
  { subst errors n. rewrite length_map, length_combine. lia. }
  rewrite Hn. split; [|split; [|split; [|split]]].
  - intros Hodd. rewrite Hodd.
    destruct n; [discriminate | reflexivity].
  - intros Heven Hnz.
    assert (Hodd : Nat.odd n = false)
      by (rewrite <- Nat.negb_even, Heven; reflexivity).
    rewrite Hodd. apply Nat.eqb_neq in Hnz. now rewrite Hnz.
  - intros ->. reflexivity.
  - apply np_sort_sorted_b64.
  - apply np_sort_permutation_b64.
Qed.

Lemma calc_median_ape_float_median_witness :
  calc_median_ape [of_Z 3; of_Z 10; of_Z 20] [of_Z 2; of_Z 11; of_Z 18]
  = Ok (of_Z 10).
Proof.
  refine (eq_trans
            (proj1 (calc_median_ape_float_median
                      [of_Z 3; of_Z 10; of_Z 20] [of_Z 2; of_Z 11; of_Z 18]
                      eq_refl eq_refl eq_refl) eq_refl) _).
  vm_compute. reflexivity.
Defined.

(** X5. On equal-length sequences of real numbers, some possibly missing,
    when the number of surviving pairs is odd the result is exactly the
    middle entry of the sorted binary64 percentage errors, hence one of the
    computed errors: no rounding enters the median itself. *)
Theorem calc_median_ape_odd_count (y_true y_pred : list spec_float) :
  length y_true = length y_pred ->
  reals_or_missing y_true = true -> reals_or_missing y_pred = true ->
  let errors := surviving_errors y_true y_pred in
  let n := length errors in
  Nat.odd n = true ->
  calc_median_ape y_true y_pred
  = Ok (nth (Nat.div n 2) (np_sort errors) S754_nan) /\
  In (nth (Nat.div n 2) (np_sort errors) S754_nan) errors.
Proof.
  intros Hlen Ht Hp errors n Hodd.
  rewrite (calc_median_ape_by_parity _ _ S754_nan Hlen Ht Hp).
  fold errors. fold n. rewrite Hodd.
  split.
  - destruct n; [discriminate | reflexivity].
  - apply (Permutation_in _ (np_sort_permutation_b64 errors)), nth_In.
    rewrite np_sort_length_b64. now apply odd_half.
Qed.

Lemma calc_median_ape_odd_count_witness :
  let y_true := [of_Z 3; S754_nan; of_Z 0] in
  let y_pred := [of_Z 2; of_Z 7; of_Z 4] in
  calc_median_ape y_true y_pred
  = Ok (S754_finite false 4691249611844266 (-47)).
Proof.
  cbv zeta.
  refine (eq_trans
            (proj1 (calc_median_ape_odd_count
                      [of_Z 3; S754_nan; of_Z 0] [of_Z 2; of_Z 7; of_Z 4]
                      eq_refl eq_refl eq_refl eq_refl)) _).
  vm_compute. reflexivity.
Defined.
Lemma fadd_not_nan (x y : spec_float) :
  nonneg_or_nan x = true -> nonneg_or_nan y = true ->
  isnan x = false -> isnan y = false -> isnan (fadd x y) = false.
Proof.
  destruct x as [[]|[]| |[] mx ex], y as [[]|[]| |[] my ey];
    try discriminate; try reflexivity.
  intros _ _ _ _. apply binary_normalize_not_nan.
Qed.

(** X6. With rounding and overflow taken into account, on equal-length
    sequences of real numbers, some possibly missing, the result is NaN
    exactly when no pair survives both filters: an overflow gives
    +infinity, never NaN. *)
Theorem calc_median_ape_nan_iff_no_survivor (y_true y_pred : list spec_float) :
  length y_true = length y_pred ->
  reals_or_missing y_true = true -> reals_or_missing y_pred = true ->
  calc_median_ape y_true y_pred = Ok S754_nan <->
  filter in_sample (combine y_true y_pred) = [].
Proof.
  intros Hlen Ht Hp.
  rewrite (calc_median_ape_by_parity _ _ S754_nan Hlen Ht Hp).
  pose proof (surviving_errors_not_nan _ _ Ht Hp) as Hn.
  pose proof (surviving_errors_nonneg y_true y_pred) as Hs.
  unfold surviving_errors in *.
  remember (filter in_sample (combine y_true y_pred)) as smp eqn:Hsmp.
  clear Hsmp.
  assert (Hc : smp = [] \/ smp <> [])
    by (destruct smp; [now left | right; discriminate]).
  destruct Hc as [->|Hne]; [split; reflexivity|].
  - set (errors := map ape smp) in *.
    assert (Hlen' : length errors <> 0%nat).
    { subst errors. rewrite length_map.
      intros L. apply length_zero_iff_nil in L. contradiction. }
    assert (Hnth : forall k, (k < length errors)%nat ->
              isnan (nth k (np_sort errors) S754_nan) = false /\
              nonneg_or_nan (nth k (np_sort errors) S754_nan) = true).
    { intros k Hk.
      assert (Hin : In (nth k (np_sort errors) S754_nan) errors).
      { apply (Permutation_in _ (np_sort_permutation_b64 errors)), nth_In.
        now rewrite np_sort_length_b64. }
      rewrite Forall_forall in Hn, Hs. split; auto. }
    apply Nat.eqb_neq in Hlen'. rewrite Hlen'. apply Nat.eqb_neq in Hlen'.
    split; [|intros Hx; contradiction].
    intros Hr. exfalso.
    apply (f_equal (fun r => match r with Ok v => isnan v | Raise _ => false end))
      in Hr.
    cbv beta iota in Hr. change (isnan S754_nan) with true in Hr.
    destruct (Nat.odd (length errors)) eqn:Hodd.
    + destruct (Hnth _ (odd_half _ Hodd)) as [H1 _].
      rewrite H1 in Hr. discriminate.
    + destruct (even_half _ Hodd Hlen') as [K1 K2].
      destruct (Hnth (Nat.div (length errors) 2 - 1)%nat ltac:(lia))
        as [A1 A2].
      destruct (Hnth (Nat.div (length errors) 2) K2) as [B1 B2].
      pose proof (fadd_not_nan _ _ A2 B2 A1 B1) as Hadd.
      pose proof (fdiv_finite_not_nan _ false 4503599627370496 (-51) Hadd)
        as Hdiv.
      change (S754_finite false 4503599627370496 (-51)) with (of_Z 2) in Hdiv.
      rewrite Hdiv in Hr. discriminate.
Qed.

Lemma calc_median_ape_nan_iff_no_survivor_witness :
  let y_true := [of_Z 0; S754_nan; of_Z 1] in
  let y_pred := [of_Z 1; of_Z 2; S754_nan] in
  calc_median_ape y_true y_pred = Ok S754_nan.
Proof.
  cbv zeta.
  apply (calc_median_ape_nan_iff_no_survivor
           [of_Z 0; S754_nan; of_Z 1] [of_Z 1; of_Z 2; S754_nan]);
    reflexivity.
Defined.

End Binary64.
